(** * file-upload-handler: chunked upload reassembly

    A shallow embedding of [src/index.js] and [src/lib/file-utils.js]:
    the temp-name allocator, the chunk store, the transmission registry
    with its quota check, and the assembler.

    Promises are run to completion in program order: every [.then]
    continuation is evaluated right after the operation it waits for, so
    one call of [recieveFile] is one atomic transition.  The file system
    is a finite map from paths to contents together with the set of
    write streams that are currently open; directories are left out, the
    temp directory ([createDir]) is taken to exist. *)

From Stdlib Require Import Strings.Byte Strings.Ascii.
From stdpp Require Import base gmap sets list strings pretty.

Local Open Scope N_scope.

(** ** The file system and the promise outcomes *)

Record World := mkWorld {
  files : gmap string (list byte);
  handles : gset string
}.

(** A settled promise: resolved with a value, or rejected. *)
Inductive Settled (A : Type) :=
  | Resolved (a : A)
  | Rejected.
Arguments Resolved {A} a.
Arguments Rejected {A}.

(** [fsp.exists(path)]. *)
Definition exists_ (path : string) (w : World) : bool :=
  bool_decide (is_Some (files w !! path)).

(** [fsp.unlink(path)]. *)
Definition unlink (path : string) (w : World) : World :=
  mkWorld (delete path (files w)) (handles w).

(** [fs.createWriteStream(path)]: the file is created or truncated and
    the stream is open. *)
Definition createWriteStream (path : string) (w : World) : World :=
  mkWorld (<[path := []]> (files w)) ({[path]} ∪ handles w).

(** [wstream.write(data)]: appends to the file while the stream is open;
    a write on a stream that has ended stores nothing. *)
Definition write (path : string) (data : list byte) (w : World) : World :=
  if bool_decide (path ∈ handles w)
  then mkWorld (<[path := default [] (files w !! path) ++ data]> (files w))
               (handles w)
  else w.

(** [wstream.endPromise()]: flushes and closes the stream. *)
Definition endPromise (path : string) (w : World) : World :=
  mkWorld (files w) (handles w ∖ {[path]}).

(** [fsp.readFile(path)]; [None] is a rejection (no such file). *)
Definition readFile (path : string) (w : World) : option (list byte) :=
  files w !! path.

(** JavaScript truthiness of an optional string and of an optional
    number, as used by [extention && ...], [if (originalFilename)],
    [maxFileSize || ...] and [partCount && ...]. *)
Definition truthy (s : option string) : bool :=
  match s with
  | Some (String _ _) => true
  | _ => false
  end.

Definition truthyN (n : option N) : bool :=
  match n with
  | Some n => negb (n =? 0)
  | None => false
  end.

(** [filename + (i>0 ? '-'+i : '')]. *)
Definition suffixed (filename : string) (i : N) : string :=
  filename +:+ (if 0 <? i then "-" +:+ pretty i else "").

(** ** The registry

    A transmission object of [FILE_TRANSMISSIONS[clientId][transId]]: the
    four named properties and the chunk properties ['1'], ['2'], ...
    The [x-partial] header is taken to be the decimal numeral of a natural
    number, so that the chunk properties are keyed by that number and
    [parseInt(partialId, 10)] is the number itself.  A property that has
    not been assigned yet is [None].

    [FILE_TRANSMISSIONS] and its client entries are plain objects; the
    maps below hold their own properties.  Under a key that names a
    property every object inherits ([__proto__], [constructor], ...) the
    source reads the inherited value where a map has nothing, and what it
    does from there on is not what the maps show; see [generatedId]. *)

(** The parsed [x-data]: a mapping from keys to values.  Nothing in the
    two files looks into it. *)
Abbreviation Data := (gmap string string).

Record Transmission := mkTransmission {
  cummulatedSize : N;
  count : option N;
  filename : option string;
  data : option Data;
  chunks : gmap N string
}.

Abbreviation Registry := (gmap string (gmap string Transmission)).

Record State := mkState {
  FILE_TRANSMISSIONS : Registry;
  world : World
}.

(** The headers and payload [recieveFile] reads from the request.
    [x_partial] is the number the header [x-partial] spells;
    [x_total_size] is the number [x-total-size] converts to in the
    comparison with the limit, [None] when the header is absent or not a
    number (the comparison is then false); the other headers are [None]
    when absent. *)
Record Request := mkRequest {
  payload : list byte;
  x_filename : option string;
  x_transid : string;
  x_clientid : string;
  x_partial : N;
  x_total_size : option N;
  x_data : option string
}.

(** What [getFinalFile] resolves with. *)
Record FileData := mkFileData {
  originalFilename : option string;
  tmpBuildFilename : string
}.

(** What the caller of [recieveFile] observes:
    [reply({status: 'BUSY'})], [reply({status: 'OK'})] after the callback
    got the two names, [reply().code(403)], or a logged error without a
    reply. *)
Inductive Reply :=
  | Incomplete
  | Complete (tmpBuildFilename : string) (originalFilename : option string)
  | QuotaExceeded
  | Error.

(** The consumer [callback(tmpBuildFilename, originalFilename)], run to
    the end of the promise it returns. *)
Abbreviation Callback := (string → option string → World → World).

(** [transmission.size()]: the number of own properties. *)
Definition size_ (t : Transmission) : N :=
  1 + (if count t is Some _ then 1 else 0)
    + (if filename t is Some _ then 1 else 0)
    + (if data t is Some _ then 1 else 0) + N.of_nat (size (chunks t)).

(** [transmission.each(function(filename, key) {key.validateNumber() &&
    removeFile(filename)})]: the chunk properties are the numeric keys.
    The removals are started one after the other and commute. *)
Definition eachChunk (f : string → World → World) (t : Transmission)
    (w : World) : World :=
  foldr (λ kv w, f kv.2 w) w (map_to_list (chunks t)).

(** [s.lastIndexOf(c)], [-1] when [c] does not occur. *)
Fixpoint lastIndexOf_from (c : ascii) (s : string) (i found : Z) : Z :=
  match s with
  | EmptyString => found
  | String a s' =>
      lastIndexOf_from c s' (i + 1)%Z (if Ascii.eqb a c then i else found)
  end.

Definition lastIndexOf (s : string) (c : ascii) : Z :=
  lastIndexOf_from c s 0%Z (-1)%Z.

(** [s.substr(start)]. *)
Fixpoint substr_nat (s : string) (start : nat) : string :=
  match start, s with
  | O, _ => s
  | S n, String _ s' => substr_nat s' n
  | S _, EmptyString => EmptyString
  end.

Definition substr (s : string) (start : Z) : string :=
  substr_nat s (Z.to_nat start).

(** [s.endsWith(c)] for a one-character [c]. *)
Fixpoint endsWith (s : string) (c : ascii) : bool :=
  match s with
  | EmptyString => false
  | String a s' =>
      match s' with
      | EmptyString => Ascii.eqb a c
      | String _ _ => endsWith s' c
      end
  end.

(** [a || b] on optional strings. *)
Definition orElse (a b : option string) : option string :=
  if truthy a then a else b.

Definition DEF_MAX_FILESIZE : N := 10 * 1024 * 1024.

(** ** src/index.js *)

Module Index.

(** [nameReserved(filename, i)].  The recursion probes [i], [i+1], ...
    and is unbounded in the source; [fuel] bounds the number of probes
    and [None] means the bound was reached. *)
Fixpoint nameReserved (fuel : nat) (w : World) (filename : string) (i : N)
  : option string :=
  match fuel with
  | O => None
  | S fuel' =>
      let fullFilename := suffixed filename i in
      if exists_ fullFilename w
      then nameReserved fuel' w filename (i + 1)
      else Some fullFilename
  end.

(** [getUniqueFilename(folder)].  [tmpFilename] stands for
    [idGenerator(TMP_FILE)+'-'+Date.now()].  One more probe than there
    are files always finds a free name ([getUniqueFilename_fresh]). *)
Definition getUniqueFilename (tmpFilename : string) (folder : string)
    (w : World) : option string :=
  nameReserved (S (size (files w))) w (folder +:+ tmpFilename) 0.

(** [removeFile(filename)]. *)
Definition removeFile (filename : string) (w : World) : World :=
  if exists_ filename w then unlink filename w else w.

(** [appendFileData(part)] inside [getFinalFile].  A rejected
    [readFile] (no such property, or no such file) rejects the whole
    chain and nothing after it runs.  Streams do not fail here: the
    [endPromise] of the last round resolves, and the removals its
    [.finally] handler starts without waiting for them have run when the
    loop resolves. *)
Fixpoint appendFileData (fuel : nat) (transmission : Transmission)
    (wstream : string) (part : N) (w : World)
  : option (Settled unit * World) :=
  match fuel with
  | O => None
  | S fuel' =>
      match chunks transmission !! part ≫= (λ path, readFile path w) with
      | None => Some (Rejected, w)
      | Some data =>
          let w := write wstream data w in
          if bool_decide (count transmission = Some part)
          then
            let w := endPromise wstream w in
            Some (Resolved (), eachChunk removeFile transmission w)
          else appendFileData fuel' transmission wstream (part + 1) w
      end
  end.

(** [getFinalFile(folder, transmission)].  The loop reads a different
    chunk property in every round, so one round more than there are
    chunk properties always settles it ([getFinalFile_total]). *)
Definition getFinalFile (tmpFilename : string) (folder : string)
    (transmission : Transmission) (w : World)
  : option (Settled FileData * World) :=
  tmpBuildFilename ← getUniqueFilename tmpFilename folder w;
  let w := createWriteStream tmpBuildFilename w in
  '(r, w) ← appendFileData (S (size (chunks transmission))) transmission
              tmpBuildFilename 1 w;
  Some (match r with
        | Resolved _ =>
            Resolved (mkFileData (filename transmission) tmpBuildFilename)
        | Rejected => Rejected
        end, w).

Section handleFile.

(** The closure variables of [handleFile]: the temp directory with its
    trailing slash and the module-wide size limit; [JSON_parse] is
    [JSON.parse(data, REVIVER)], [None] when it throws. *)
Variable TMP_DIR : string.
Variable globalMaxFileSize : option N.
Variable JSON_parse : string → option Data.

(** [maxFileSize || globalMaxFileSize || DEF_MAX_FILESIZE]. *)
Definition effectiveMax (maxFileSize : option N) : N :=
  if truthyN maxFileSize then default 0 maxFileSize
  else if truthyN globalMaxFileSize then default 0 globalMaxFileSize
  else DEF_MAX_FILESIZE.

(** Lines 280-289: the transmission object after the size of this
    payload has been counted.  The lookup is that of own properties
    (ids that name no inherited property). *)
Definition accounted (req : Request) (FT : Registry) : Transmission :=
  let filedataSize := N.of_nat (length (payload req)) in
  match default ∅ (FT !! x_clientid req) !! x_transid req with
  | None => mkTransmission filedataSize None None None ∅
  | Some t =>
      mkTransmission (cummulatedSize t + filedataSize) (count t)
        (filename t) (data t) (chunks t)
  end.

(** [FILE_TRANSMISSIONS[clientId][transId] = t]. *)
Definition setTransmission (req : Request) (t : Transmission)
    (FT : Registry) : Registry :=
  <[x_clientid req := <[x_transid req := t]>
                        (default ∅ (FT !! x_clientid req))]> FT.

(** Line 302: [(totalSize>maxFileSize) || (cummulatedSize>maxFileSize)]. *)
Definition overQuota (max : N) (req : Request) (t : Transmission) : bool :=
  match x_total_size req with
  | Some totalSize => max <? totalSize
  | None => false
  end || (max <? cummulatedSize t).

(** [delete FILE_TRANSMISSIONS[clientId][transId]] and, when the client
    has no transmission left, [delete FILE_TRANSMISSIONS[clientId]], for
    ids under which the entries are own properties. *)
Definition forget (req : Request) (FT : Registry) : Registry :=
  let client := delete (x_transid req) (default ∅ (FT !! x_clientid req)) in
  if bool_decide (size client = 0%nat)
  then delete (x_clientid req) FT
  else <[x_clientid req := client]> FT.

(** Lines 322-343: the chunk's file name is saved, and the chunk that
    carries [x-filename] sets [count], [filename] and [data]. *)
Definition recorded (fullFilename : string) (req : Request)
    (t : Transmission) : Transmission :=
  let chunks' := <[x_partial req := fullFilename]> (chunks t) in
  if truthy (x_filename req)
  then
    mkTransmission (cummulatedSize t) (Some (x_partial req))
      (x_filename req)
      (Some (if truthy (x_data req)
             then default ∅ (x_data req ≫= JSON_parse)
             else ∅))
      chunks'
  else
    mkTransmission (cummulatedSize t) (count t) (filename t) (data t)
      chunks'.

(** Lines 345-346:
    [partCount && (transmission.size()===(partCount+4))]. *)
Definition allPartsProcessed (t : Transmission) : bool :=
  truthyN (count t) && bool_decide (size_ t = default 0 (count t) + 4).

(** The chunk store of lines 316-320. *)
Definition writeChunk (fullFilename : string) (filedata : list byte)
    (w : World) : World :=
  endPromise fullFilename
    (write fullFilename filedata (createWriteStream fullFilename w)).

(** Lines 311-359, the promise the reply waits for: the chunk is
    written to a fresh file and recorded; it resolves with the data of
    [getFinalFile] when all parts are there and with nothing
    otherwise. *)
Definition storeAndBuild (chunkName buildName : string) (req : Request)
    (t : Transmission) (FT : Registry) (w : World)
  : option (Settled (option FileData) * State) :=
  fullFilename ← getUniqueFilename chunkName TMP_DIR w;
  let w := writeChunk fullFilename (payload req) w in
  let t := recorded fullFilename req t in
  let FT := setTransmission req t FT in
  if allPartsProcessed t
  then
    '(r, w) ← getFinalFile buildName TMP_DIR t w;
    Some (match r with
          | Resolved filedata => Resolved (Some filedata)
          | Rejected => Rejected
          end, mkState FT w)
  else Some (Resolved None, mkState FT w).

(** Lines 360-382: the callback gets the built file, the reply is
    sent, and for a built file the transmission is forgotten and the
    file removed.  A rejection is logged. *)
Definition respond (callback : option Callback) (req : Request)
    (p : Settled (option FileData)) (st : State) : Reply * State :=
  match p with
  | Rejected => (Error, st)
  | Resolved None => (Incomplete, st)
  | Resolved (Some filedata) =>
      let w :=
        match callback with
        | Some cb =>
            cb (tmpBuildFilename filedata) (originalFilename filedata)
              (world st)
        | None => world st
        end in
      (Complete (tmpBuildFilename filedata) (originalFilename filedata),
       mkState (forget req (FILE_TRANSMISSIONS st))
         (removeFile (tmpBuildFilename filedata) w))
  end.

(** [recieveFile(request, reply, maxFileSize, callback)].
    [chunkName] and [buildName] are the two values of
    [idGenerator(TMP_FILE)+'-'+Date.now()] this call may draw. *)
Definition recieveFile (maxFileSize : option N) (callback : option Callback)
    (chunkName buildName : string) (req : Request) (st : State)
  : option (Reply * State) :=
  let t := accounted req (FILE_TRANSMISSIONS st) in
  let FT := setTransmission req t (FILE_TRANSMISSIONS st) in
  let maxFileSize := effectiveMax maxFileSize in
  if overQuota maxFileSize req t
  then Some (QuotaExceeded, mkState (forget req FT) (world st))
  else
    '(p, st) ← storeAndBuild chunkName buildName req t FT (world st);
    Some (respond callback req p st).

(** A sequence of calls, oldest first; each comes with its own
    arguments. *)
Record Call := mkCall {
  call_max : option N;
  call_callback : option Callback;
  call_chunkName : string;
  call_buildName : string;
  call_request : Request
}.

Fixpoint run (calls : list Call) (st : State)
  : option (list Reply * State) :=
  match calls with
  | [] => Some ([], st)
  | c :: calls' =>
      '(r, st') ← recieveFile (call_max c) (call_callback c)
                    (call_chunkName c) (call_buildName c)
                    (call_request c) st;
      '(rs, st'') ← run calls' st';
      Some (r :: rs, st'')
  end.

End handleFile.

(** The first lines of [handleFile(tempdir, maxFileSize, nsClientId)]:
    [TMP_DIR] is the first truthy one of [tempdir], [process.env.TMP],
    [process.env.TEMP] and ['/tmp'], with a slash appended unless it ends
    with one. *)
Definition TMP_DIR_of (tempdir env_TMP env_TEMP : option string) : string :=
  let TMP_DIR :=
    default "/tmp"
      (orElse tempdir (orElse env_TMP (orElse env_TEMP (Some "/tmp")))) in
  if endsWith TMP_DIR "/" then TMP_DIR else TMP_DIR +:+ "/".

End Index.

(** ** src/lib/file-utils.js *)

Module FileUtils.

(** [nameReserved(filename, i)] with the captured [extention], which the
    caller has already turned into ["." + extention] when truthy. *)
Fixpoint nameReserved (fuel : nat) (w : World) (extention : option string)
    (filename : string) (i : N) : option string :=
  match fuel with
  | O => None
  | S fuel' =>
      let fullFilename := suffixed filename i in
      if exists_ fullFilename w
      then nameReserved fuel' w extention filename (i + 1)
      else Some (fullFilename +:+
                 (if truthy extention then default "" extention else ""))
  end.

(** [getUniqueFilename(folder, extention)]. *)
Definition getUniqueFilename (tmpFilename : string) (folder : string)
    (extention : option string) (w : World) : option string :=
  let extention :=
    if truthy extention then (λ e, "." +:+ e) <$> extention else extention in
  nameReserved (S (size (files w))) w extention (folder +:+ tmpFilename) 0.

(** [removeFile(filename)]. *)
Definition removeFile (filename : string) (w : World) : World :=
  if exists_ filename w then unlink filename w else w.

(** [appendFileData(part)] inside [getFinalFile]. *)
Fixpoint appendFileData (fuel : nat) (transmission : Transmission)
    (wstream : string) (part : N) (w : World)
  : option (Settled unit * World) :=
  match fuel with
  | O => None
  | S fuel' =>
      match chunks transmission !! part ≫= (λ path, readFile path w) with
      | None => Some (Rejected, w)
      | Some data =>
          let w := write wstream data w in
          if bool_decide (count transmission = Some part)
          then
            let w := endPromise wstream w in
            Some (Resolved (), eachChunk removeFile transmission w)
          else appendFileData fuel' transmission wstream (part + 1) w
      end
  end.

(** The extension [getFinalFile] takes from [transmission.filename]. *)
Definition extentionOf (filename : string) : option string :=
  let dot := lastIndexOf filename "." in
  if bool_decide (dot ≠ (-1)%Z) then Some (substr filename (dot + 1)%Z)
  else None.

(** [getFinalFile(folder, transmission)].  Without a [filename]
    property, [transmission.filename.lastIndexOf] throws before
    anything else happens. *)
Definition getFinalFile (tmpFilename : string) (folder : string)
    (transmission : Transmission) (w : World)
  : option (Settled FileData * World) :=
  match filename transmission with
  | None => Some (Rejected, w)
  | Some name =>
      let extention := extentionOf name in
      tmpBuildFilename ← getUniqueFilename tmpFilename folder extention w;
      let w := createWriteStream tmpBuildFilename w in
      '(r, w) ← appendFileData (S (size (chunks transmission))) transmission
                  tmpBuildFilename 1 w;
      Some (match r with
            | Resolved _ =>
                Resolved (mkFileData (filename transmission) tmpBuildFilename)
            | Rejected => Rejected
            end, w)
  end.

End FileUtils.

(** ** Vocabulary of the properties *)

(** The transmission object of a client and transmission id, if any. *)
Definition transmissionOf (clientId transId : string) (FT : Registry)
  : option Transmission :=
  FT !! clientId ≫= (λ client, client !! transId).

(** The [len] chunk indices from [part] on, and the indices [1..n]. *)
Fixpoint partsFrom (part : N) (len : nat) : list N :=
  match len with
  | O => []
  | S len' => part :: partsFrom (part + 1) len'
  end.

Definition indices (n : nat) : list N := partsFrom 1 n.

(** What [readFile(transmission[part])] yields in a world. *)
Definition chunkData (t : Transmission) (w : World) (part : N)
  : option (list byte) :=
  chunks t !! part ≫= (λ path, readFile path w).

(** The payload that arrived with chunk index [i]. *)
Fixpoint payloadOf (reqs : list Request) (i : N) : list byte :=
  match reqs with
  | [] => []
  | r :: reqs' => if x_partial r =? i then payload r else payloadOf reqs' i
  end.

(** The bytes received by a sequence of requests. *)
Definition receivedBytes (reqs : list Request) : N :=
  foldr (λ r acc, N.of_nat (length (payload r)) + acc) 0 reqs.

(** A transmission is complete, in the words of the data model: the
    expected count is known and equals the number of recorded chunk
    entries. *)
Definition complete (t : Transmission) : Prop :=
  ∃ n, count t = Some n ∧ N.of_nat (size (chunks t)) = n.

(** [count], [filename] and [data] are assigned by the same chunk. *)
Definition terminalTogether (t : Transmission) : Prop :=
  match count t, filename t, data t with
  | Some _, Some _, Some _ => True
  | None, None, None => True
  | _, _, _ => False
  end.

Definition wellFormed (FT : Registry) : Prop :=
  ∀ clientId transId t,
    transmissionOf clientId transId FT = Some t → terminalTogether t.

(** The chunk entries and the counted size of a transmission object that
    may not exist yet. *)
Definition chunksOf (o : option Transmission) : gmap N string :=
  default ∅ (chunks <$> o).

Definition sizeOf (o : option Transmission) : N :=
  default 0 (cummulatedSize <$> o).

(** The chunks of one upload of [n] chunks as a client sends them: all
    under one client and transmission id, and only chunk [n] carries the
    file name. *)
Definition sentBy (clientId transId : string) (n : N) (name : string)
    (r : Request) : Prop :=
  x_clientid r = clientId ∧ x_transid r = transId
  ∧ (x_partial r = n → x_filename r = Some name)
  ∧ (x_partial r ≠ n → truthy (x_filename r) = false).

(** The state of a transmission after the requests [reqs] have been
    stored: every recorded path holds the payload of its index. *)
Definition storedSoFar (clientId transId : string) (n : N) (name : string)
    (reqs : list Request) (st : State) : Prop :=
  let o := transmissionOf clientId transId (FILE_TRANSMISSIONS st) in
  sizeOf o = receivedBytes reqs
  ∧ dom (chunksOf o) = list_to_set (x_partial <$> reqs)
  ∧ (∀ i path, chunksOf o !! i = Some path →
               files (world st) !! path = Some (payloadOf reqs i))
  ∧ o ≫= count
    = (if bool_decide (n ∈ x_partial <$> reqs) then Some n else None)
  ∧ o ≫= filename
    = (if bool_decide (n ∈ x_partial <$> reqs) then Some name else None)
  ∧ (∀ t, o = Some t → terminalTogether t).

(** A call stays within the quota of an upload of [total] bytes:
    neither the bytes nor the declared total size exceed the limit in
    force for the call. *)
Definition withinQuota (globalMaxFileSize : option N) (total : N)
    (call : Index.Call) : Prop :=
  total ≤ Index.effectiveMax globalMaxFileSize (Index.call_max call)
  ∧ ∀ declared, x_total_size (Index.call_request call) = Some declared →
                declared
                ≤ Index.effectiveMax globalMaxFileSize (Index.call_max call).

(** A stand-in for [JSON.parse] in the examples: it understands the empty
    object and throws on everything else. *)
Definition parseEmptyObject (s : string) : option Data :=
  if bool_decide (s = "{}") then Some ∅ else None.

(** *** Example uploads

    One client, one transmission, chunks of ten equal bytes, a temp
    directory [/tmp/] and no module-wide limit. *)

Definition emptyState : State := mkState ∅ (mkWorld ∅ ∅).

Definition chunkRequest (partial : N) (b : byte) (name : option string)
  : Request :=
  mkRequest (replicate 10 b) name "ITSA-FILETRANS-1" "ITSA_CL_ID-1" partial
    None None.

Definition chunkCall (max : N) (id : string) (req : Request) : Index.Call :=
  Index.mkCall (Some max) None ("tmp-file-" +:+ id +:+ "-17")
    ("tmp-file-" +:+ id +:+ "-18") req.

(** Chunks 2, 1 and 3, the last one named, under a limit of 1 KB. *)
Definition photoUpload : list Index.Call :=
  [chunkCall 1024 "1" (chunkRequest 2 "002" None);
   chunkCall 1024 "2" (chunkRequest 1 "001" None);
   chunkCall 1024 "3" (chunkRequest 3 "003" (Some "photo.png"))].

(** Chunks 1 and 2 under a limit of 15 bytes. *)
Definition oversizedUpload : list Index.Call :=
  [chunkCall 15 "1" (chunkRequest 1 "001" None);
   chunkCall 15 "2" (chunkRequest 2 "002" (Some "photo.png"))].

(** Chunk 1, chunk 1 sent again, and the named chunk 2. *)
Definition resentUpload : list Index.Call :=
  [chunkCall 1024 "1" (chunkRequest 1 "001" None);
   chunkCall 1024 "2" (chunkRequest 1 "001" None);
   chunkCall 1024 "3" (chunkRequest 2 "002" (Some "photo.png"))].

(** A transmission whose named chunk 2 and a chunk 3 have been stored,
    but no chunk 1. *)
Definition gappedTransmission : Transmission :=
  mkTransmission 20 (Some 2) (Some "photo.png") (Some ∅)
    {[ 2 := "/tmp/tmp-file-2-17"; 3 := "/tmp/tmp-file-1-17" ]}.

Definition gappedWorld : World :=
  mkWorld {[ "/tmp/tmp-file-1-17" := replicate 10 "003"%byte;
             "/tmp/tmp-file-2-17" := replicate 10 "002"%byte ]} ∅.

(** A one-chunk transmission of [photo.png], stored. *)
Definition photoTransmission : Transmission :=
  mkTransmission 10 (Some 1) (Some "photo.png") (Some ∅)
    {[ 1 := "/tmp/tmp-file-1-17" ]}.

Definition photoWorld : World :=
  mkWorld {[ "/tmp/tmp-file-1-17" := replicate 10 "001"%byte ]} ∅.

(** The paths a transmission object records for its chunks. *)
Definition chunkPaths (t : Transmission) : list string :=
  (map_to_list (chunks t)).*2.

(** *** Vocabulary of the registry invariants *)

(** Chunk [i] of the transmission is recorded under [path]. *)
Definition recordedAt (FT : Registry) (clientId transId : string) (i : N)
    (path : string) : Prop :=
  ∃ t, transmissionOf clientId transId FT = Some t ∧ chunks t !! i = Some path.

(** Every recorded chunk path is a file on disk, and it is recorded
    once: under one client, one transmission and one index. *)
Definition chunkFilesOwned (st : State) : Prop :=
  ∀ clientId transId i path,
    recordedAt (FILE_TRANSMISSIONS st) clientId transId i path →
    is_Some (files (world st) !! path)
    ∧ ∀ clientId' transId' i',
        recordedAt (FILE_TRANSMISSIONS st) clientId' transId' i' path →
        (clientId', transId', i') = (clientId, transId, i).

(** No client entry is left without a transmission. *)
Definition noEmptyClient (FT : Registry) : Prop :=
  ∀ clientId client, FT !! clientId = Some client → client ≠ ∅.

(** *** Ids

    The ids the framework hands out come from [idGenerator(namespace)]:
    the namespace, a dash and a counter, as in ["ITSA_CL_ID-1"] and
    ["ITSA-FILETRANS-1"] of the description of [FILE_TRANSMISSIONS].  No
    property an object inherits has such a name, so under these ids the
    registry finds, sets and deletes own properties only, which is what
    the maps model.  The properties of the registry's bookkeeping are
    stated for requests with such ids. *)
Definition generatedId (id : string) : Prop :=
  ∃ (namespace : string) (counter : N),
    id = namespace +:+ "-" +:+ pretty counter.

Definition generatedIds (req : Request) : Prop :=
  generatedId (x_clientid req) ∧ generatedId (x_transid req).

(** The payload of the latest arrival with chunk index [i]. *)
Definition latestPayloadOf (reqs : list Request) (i : N) : list byte :=
  payloadOf (reverse reqs) i.

(** The state after chunk 1 of the example uploads has been stored. *)
Definition chunkStored : State :=
  mkState
    {[ "ITSA_CL_ID-1" :=
         {[ "ITSA-FILETRANS-1" :=
              mkTransmission 10 None None None
                {[ 1 := "/tmp/tmp-file-1-17" ]} ]} ]}
    (mkWorld {[ "/tmp/tmp-file-1-17" := replicate 10 "001"%byte ]} ∅).

(** A second client, and its upload of two chunks. *)
Definition otherClientRequest (partial : N) (b : byte) (name : option string)
  : Request :=
  mkRequest (replicate 10 b) name "ITSA-FILETRANS-1" "ITSA_CL_ID-2" partial
    None None.

Definition otherClientUpload : list Index.Call :=
  [chunkCall 1024 "2" (otherClientRequest 1 "004" None);
   chunkCall 1024 "3" (otherClientRequest 2 "005" (Some "notes.txt"))].

(** A string without the character [c]. *)
Fixpoint without (c : ascii) (s : string) : Prop :=
  match s with
  | EmptyString => True
  | String a s' => a ≠ c ∧ without c s'
  end.

(** * Properties *)

(** ** Probing a finite file system always ends *)


Section Probing.

Lemma suffixed_inj filename : Inj (=) (=) (suffixed filename).
Proof.
  intros i j. unfold suffixed.
  intros H%String.app_inj.
  destruct (N.ltb_spec 0 i) as [Hi|Hi], (N.ltb_spec 0 j) as [Hj|Hj].
  - simpl in H. injection H as H. by apply pretty_N_inj.
  - discriminate.
  - discriminate.
  - lia.
Qed.

Lemma exists_true path w : exists_ path w = true ↔ path ∈ dom (files w).
Proof. unfold exists_. rewrite bool_decide_eq_true. by rewrite elem_of_dom. Qed.

Lemma exists_false path w : exists_ path w = false ↔ files w !! path = None.
Proof.
  unfold exists_. rewrite bool_decide_eq_false.
  by rewrite eq_None_not_Some.
Qed.

(** Names already probed are distinct files, so at most [size (files w)]
    probes can hit an existing file. *)
Lemma nameReserved_finds w filename (X : gset string) fuel i :
  X ⊆ dom (files w) →
  (∀ j, i ≤ j → suffixed filename j ∉ X) →
  (size (files w) < size X + fuel)%nat →
  ∃ k, Index.nameReserved fuel w filename i = Some (suffixed filename k)
       ∧ i ≤ k
       ∧ files w !! suffixed filename k = None
       ∧ ∀ j, i ≤ j < k → is_Some (files w !! suffixed filename j).
Proof.
  revert i X. induction fuel as [|fuel IH]; intros i X HX Hfresh Hsize.
  - apply subseteq_size in HX. rewrite size_dom in HX. lia.
  - simpl. destruct (exists_ (suffixed filename i) w) eqn:Hex.
    + apply exists_true in Hex.
      destruct (IH (i + 1) ({[suffixed filename i]} ∪ X)) as (k & Hk & Hle & Hnone & Hall).
      * apply union_subseteq; split; [by apply singleton_subseteq_l|done].
      * intros j Hj [Heq%elem_of_singleton|Hin]%elem_of_union.
        -- apply suffixed_inj in Heq. lia.
        -- apply (Hfresh j); [lia|done].
      * rewrite size_union; [|specialize (Hfresh i); set_solver by lia].
        rewrite size_singleton. lia.
      * exists k. split_and!; [done|lia|done|].
        intros j Hj. destruct (decide (j = i)) as [->|].
        -- by apply elem_of_dom.
        -- apply Hall. lia.
    + apply exists_false in Hex. exists i. split_and!; [done|lia|done|].
      intros j Hj. lia.
Qed.

End Probing.

Lemma append_empty_r (s : string) : s +:+ "" = s.
Proof.
  induction s as [|a s IH]; [done|].
  change (String a (s +:+ "") = String a s). by rewrite IH.
Qed.

(** [Index.getUniqueFilename] always answers, with the first of
    [base], [base-1], [base-2], ... that does not exist. *)
Lemma getUniqueFilename_first_free tmpFilename folder w :
  ∃ k, Index.getUniqueFilename tmpFilename folder w
         = Some (suffixed (folder +:+ tmpFilename) k)
       ∧ files w !! suffixed (folder +:+ tmpFilename) k = None
       ∧ ∀ j, j < k → is_Some (files w !! suffixed (folder +:+ tmpFilename) j).
Proof.
  destruct (nameReserved_finds w (folder +:+ tmpFilename) ∅
              (S (size (files w))) 0) as (k & Hk & _ & Hnone & Hall).
  - apply empty_subseteq.
  - intros j _. apply not_elem_of_empty.
  - rewrite size_empty. lia.
  - exists k. split_and!; [done..|]. intros j Hj. apply Hall. lia.
Qed.

Lemma getUniqueFilename_fresh tmpFilename folder w :
  ∃ path, Index.getUniqueFilename tmpFilename folder w = Some path
          ∧ files w !! path = None.
Proof.
  destruct (getUniqueFilename_first_free tmpFilename folder w)
    as (k & Hk & Hnone & _).
  eauto.
Qed.

(** The allocator of [file-utils.js] probes exactly like the one of
    [index.js] and then appends the extension to the name it found. *)
Lemma nameReserved_extention fuel w extention filename i :
  FileUtils.nameReserved fuel w extention filename i
  = (λ path, path +:+ (if truthy extention then default "" extention else ""))
      <$> Index.nameReserved fuel w filename i.
Proof.
  revert i. induction fuel as [|fuel IH]; intros i; simpl; [done|].
  destruct (exists_ (suffixed filename i) w); [apply IH|done].
Qed.

Lemma getUniqueFilename_extention tmpFilename folder extention w :
  FileUtils.getUniqueFilename tmpFilename folder extention w
  = (λ path, path +:+ (if truthy extention
                       then "." +:+ default "" extention else ""))
      <$> Index.getUniqueFilename tmpFilename folder w.
Proof.
  unfold FileUtils.getUniqueFilename, Index.getUniqueFilename.
  rewrite nameReserved_extention.
  destruct extention as [[|a e]|]; done.
Qed.

Lemma getUniqueFilename_no_extention tmpFilename folder extention w :
  truthy extention = false →
  FileUtils.getUniqueFilename tmpFilename folder extention w
  = Index.getUniqueFilename tmpFilename folder w.
Proof.
  intros Hext. rewrite getUniqueFilename_extention, Hext.
  destruct (Index.getUniqueFilename tmpFilename folder w) as [path|]; [|done].
  change (Some (path +:+ "") = Some path). by rewrite append_empty_r.
Qed.

Lemma removeFile_agree filename w :
  FileUtils.removeFile filename w = Index.removeFile filename w.
Proof. reflexivity. Qed.

Lemma appendFileData_agree fuel transmission wstream part w :
  FileUtils.appendFileData fuel transmission wstream part w
  = Index.appendFileData fuel transmission wstream part w.
Proof.
  revert part w. induction fuel as [|fuel IH]; intros part w; simpl; [done|].
  destruct (chunks transmission !! part ≫= _) as [data|]; [|done].
  case_bool_decide; [done|apply IH].
Qed.

Lemma getFinalFile_agree tmpFilename folder transmission name w :
  filename transmission = Some name →
  truthy (FileUtils.extentionOf name) = false →
  FileUtils.getFinalFile tmpFilename folder transmission w
  = Index.getFinalFile tmpFilename folder transmission w.
Proof.
  intros Hname Hext. unfold FileUtils.getFinalFile, Index.getFinalFile.
  rewrite Hname, getUniqueFilename_no_extention by done.
  destruct (Index.getUniqueFilename tmpFilename folder w) as [path|]; [|done].
  cbn [mbind option_bind]. by rewrite appendFileData_agree.
Qed.

(** ** The file system primitives *)

Lemma removeFile_files path w :
  files (Index.removeFile path w) = delete path (files w).
Proof.
  unfold Index.removeFile. destruct (exists_ path w) eqn:Hex; [done|].
  apply exists_false in Hex. symmetry. by apply delete_id.
Qed.

Lemma removeFile_handles path w :
  handles (Index.removeFile path w) = handles w.
Proof. unfold Index.removeFile. by destruct (exists_ path w). Qed.

Lemma writeChunk_files path filedata w :
  files (Index.writeChunk path filedata w) = <[path := filedata]> (files w).
Proof.
  unfold Index.writeChunk, write, createWriteStream. simpl.
  rewrite bool_decide_eq_true_2 by (apply elem_of_union_l, elem_of_singleton; done).
  simpl. rewrite lookup_insert_eq. simpl. by rewrite insert_insert_eq.
Qed.

Lemma writeChunk_handles path filedata w :
  handles (Index.writeChunk path filedata w)
  = ({[path]} ∪ handles w) ∖ {[path]}.
Proof.
  unfold Index.writeChunk, write, createWriteStream. simpl.
  by rewrite bool_decide_eq_true_2 by (apply elem_of_union_l, elem_of_singleton; done).
Qed.

Lemma write_files_ne wstream data w path :
  path ≠ wstream → files (write wstream data w) !! path = files w !! path.
Proof.
  intros Hne. unfold write. case_bool_decide; [|done].
  simpl. by rewrite lookup_insert_ne.
Qed.

Lemma write_files_eq wstream data w :
  wstream ∈ handles w →
  files (write wstream data w) !! wstream
  = Some (default [] (files w !! wstream) ++ data).
Proof.
  intros Hopen. unfold write. rewrite bool_decide_eq_true_2 by done.
  simpl. by rewrite lookup_insert_eq.
Qed.

Lemma write_handles wstream data w :
  handles (write wstream data w) = handles w.
Proof. unfold write. by case_bool_decide. Qed.

Lemma foldr_removeFile_files paths w path :
  files (foldr Index.removeFile w paths) !! path
  = if decide (path ∈ paths) then None else files w !! path.
Proof.
  induction paths as [|q paths IH]; cbn [foldr].
  - destruct (decide (path ∈ [])) as [Hin|]; [by apply elem_of_nil in Hin|done].
  - rewrite removeFile_files. destruct (decide (q = path)) as [->|Hne].
    + rewrite lookup_delete_eq.
      destruct (decide (path ∈ path :: paths)) as [|Hin]; [done|].
      exfalso. apply Hin, elem_of_cons. by left.
    + rewrite lookup_delete_ne, IH by done.
      destruct (decide (path ∈ paths)) as [Hin|Hnin];
        destruct (decide (path ∈ q :: paths)) as [Hin'|Hin']; try done.
      * exfalso. apply Hin', elem_of_cons. by right.
      * apply elem_of_cons in Hin' as [?|?]; congruence.
Qed.

Lemma eachChunk_foldr t w :
  eachChunk Index.removeFile t w = foldr Index.removeFile w (chunkPaths t).
Proof.
  unfold eachChunk, chunkPaths.
  induction (map_to_list (chunks t)) as [|[k path] l IH]; simpl; [done|].
  by rewrite IH.
Qed.

Lemma eachChunk_files t w path :
  files (eachChunk Index.removeFile t w) !! path
  = if decide (path ∈ chunkPaths t) then None else files w !! path.
Proof. rewrite eachChunk_foldr. apply foldr_removeFile_files. Qed.

Lemma eachChunk_handles t w :
  handles (eachChunk Index.removeFile t w) = handles w.
Proof.
  rewrite eachChunk_foldr.
  induction (chunkPaths t) as [|q paths IH]; simpl; [done|].
  by rewrite removeFile_handles.
Qed.

Lemma elem_of_chunkPaths t part path :
  chunks t !! part = Some path → path ∈ chunkPaths t.
Proof.
  intros Hpart. unfold chunkPaths. apply list_elem_of_fmap.
  exists (part, path). split; [done|]. by apply elem_of_map_to_list.
Qed.

Lemma chunkPaths_elem_of t path :
  path ∈ chunkPaths t → ∃ part, chunks t !! part = Some path.
Proof.
  unfold chunkPaths. intros [[part q] [-> Hin]]%list_elem_of_fmap.
  exists part. by apply elem_of_map_to_list.
Qed.

Lemma elem_of_partsFrom i part len :
  i ∈ partsFrom part len ↔ part ≤ i < part + N.of_nat len.
Proof.
  revert part. induction len as [|len IH]; intros part; simpl.
  - rewrite elem_of_nil. lia.
  - rewrite elem_of_cons, IH. lia.
Qed.

Lemma elem_of_indices i n : i ∈ indices n ↔ 1 ≤ i ≤ N.of_nat n.
Proof. unfold indices. rewrite elem_of_partsFrom. lia. Qed.

Lemma NoDup_partsFrom part len : NoDup (partsFrom part len).
Proof.
  revert part. induction len as [|len IH]; intros part; simpl.
  - constructor.
  - constructor; [|apply IH]. rewrite elem_of_partsFrom. lia.
Qed.

Lemma length_partsFrom part len : length (partsFrom part len) = len.
Proof. revert part. induction len as [|len IH]; intros part; simpl; [done|by rewrite IH]. Qed.

(** ** The assembling loop *)

(** Every round that continues has read a chunk property not read before,
    so the loop settles within one round more than there are chunk
    properties. *)
Lemma appendFileData_settles t wstream (X : gset N) fuel part w :
  X ⊆ dom (chunks t) →
  (∀ j, part ≤ j → j ∉ X) →
  (size (chunks t) < size X + fuel)%nat →
  is_Some (Index.appendFileData fuel t wstream part w).
Proof.
  revert part X w. induction fuel as [|fuel IH]; intros part X w HX Hfresh Hsize.
  - apply subseteq_size in HX. rewrite size_dom in HX. lia.
  - simpl. destruct (chunks t !! part) as [path|] eqn:Hpart; simpl; [|by eexists].
    destruct (readFile path w) as [data|]; [|by eexists].
    case_bool_decide; [by eexists|].
    apply (IH _ ({[part]} ∪ X)).
    + apply union_subseteq. split; [|done].
      apply singleton_subseteq_l, elem_of_dom. by eexists.
    + intros j Hj [Heq%elem_of_singleton|Hin]%elem_of_union; [lia|].
      apply (Hfresh j); [lia|done].
    + rewrite size_union, size_singleton; [lia|].
      apply disjoint_singleton_l, Hfresh. lia.
Qed.

(** More fuel does not change a settled loop. *)
Lemma appendFileData_fuel fuel fuel' t wstream part w r :
  Index.appendFileData fuel t wstream part w = Some r →
  (fuel ≤ fuel')%nat →
  Index.appendFileData fuel' t wstream part w = Some r.
Proof.
  revert fuel' part w. induction fuel as [|fuel IH]; intros fuel' part w; [done|].
  intros Hrun Hle. destruct fuel' as [|fuel']; [lia|]. simpl in *.
  destruct (chunks t !! part ≫= _) as [data|]; [|done].
  case_bool_decide; [done|]. apply IH; [done|lia].
Qed.

(** A rejection leaves the stream as it was; a resolution has read every
    index up to [count] and then ended the stream. *)
Lemma appendFileData_stream fuel t wstream part w r w' :
  Index.appendFileData fuel t wstream part w = Some (r, w') →
  match r with
  | Rejected => handles w' = handles w
  | Resolved _ =>
      handles w' = handles w ∖ {[wstream]}
      ∧ ∃ n, count t = Some n ∧ part ≤ n
             ∧ ∀ i, part ≤ i ≤ n → is_Some (chunks t !! i)
  end.
Proof.
  revert part w. induction fuel as [|fuel IH]; intros part w; [done|]. simpl.
  destruct (chunks t !! part) as [path|] eqn:Hpart; simpl;
    [|by intros [= <- <-]].
  destruct (readFile path w) as [data|]; [|by intros [= <- <-]].
  case_bool_decide as Hcount.
  - intros [= <- <-]. split.
    + rewrite eachChunk_handles. simpl. by rewrite write_handles.
    + exists part. split_and!; [done|lia|].
      intros i Hi. replace i with part by lia. by eexists.
  - intros Hrun. specialize (IH _ _ Hrun). destruct r as [[]|].
    + destruct IH as (Hclosed & n & Hn & Hle & Hall).
      split; [by rewrite Hclosed, write_handles|]. exists n. split_and!; [done|lia|].
      intros i Hi. destruct (decide (i = part)) as [->|]; [by eexists|].
      apply Hall. lia.
    + by rewrite IH, write_handles.
Qed.

(** When every chunk file from [part] up to [count] can be read, the loop
    is not rejected. *)
Lemma appendFileData_not_rejected fuel t wstream n part w r w' :
  Index.appendFileData fuel t wstream part w = Some (r, w') →
  count t = Some n → part ≤ n →
  (∀ i, part ≤ i ≤ n →
        ∃ path, chunks t !! i = Some path ∧ path ≠ wstream
                ∧ is_Some (files w !! path)) →
  r = Resolved ().
Proof.
  revert part w. induction fuel as [|fuel IH]; intros part w; [done|]. simpl.
  intros Hrun Hn Hle Hall.
  destruct (Hall part) as (path & Hpart & Hne & [data Hdata]); [lia|].
  rewrite Hpart in Hrun. simpl in Hrun. unfold readFile in Hrun.
  rewrite Hdata in Hrun. case_bool_decide as Hcount.
  - by injection Hrun as <- <-.
  - apply (IH _ _ Hrun Hn).
    + assert (part ≠ n) by congruence. lia.
    + intros i Hi. destruct (Hall i) as (q & Hq & Hqne & Hex); [lia|].
      exists q. split_and!; [done..|]. by rewrite write_files_ne.
Qed.

(** The bytes a resolved loop has appended: the chunk files of the
    indices [part .. count], in this order. *)
Lemma appendFileData_resolved fuel t wstream part w w' :
  Index.appendFileData fuel t wstream part w = Some (Resolved (), w') →
  wstream ∈ handles w →
  wstream ∉ chunkPaths t →
  ∃ len ds,
    count t = Some (part + N.of_nat len)
    ∧ Forall2 (λ i d, chunkData t w i = Some d) (partsFrom part (S len)) ds
    ∧ files w' !! wstream = Some (default [] (files w !! wstream) ++ concat ds)
    ∧ ∀ path, path ≠ wstream →
        files w' !! path
        = if decide (path ∈ chunkPaths t) then None else files w !! path.
Proof.
  revert part w. induction fuel as [|fuel IH]; intros part w; [done|]. simpl.
  intros Hrun Hopen Hout.
  destruct (chunks t !! part) as [path|] eqn:Hpart; simpl in Hrun; [|done].
  destruct (readFile path w) as [data|] eqn:Hdata; [|done].
  assert (path ≠ wstream) as Hne.
  { intros ->. by apply Hout, (elem_of_chunkPaths _ part). }
  case_bool_decide as Hcount.
  - injection Hrun as <-. exists 0%nat, [data]. split_and!.
    + rewrite Hcount. f_equal. lia.
    + repeat constructor. unfold chunkData. by rewrite Hpart.
    + rewrite eachChunk_files, decide_False by done. simpl.
      rewrite write_files_eq by done. by rewrite app_nil_r.
    + intros q Hq. rewrite eachChunk_files. simpl.
      by rewrite write_files_ne.
  - destruct (IH _ _ Hrun) as (len & ds & Hn & Hds & Hfile & Hrest).
    + by rewrite write_handles.
    + done.
    + exists (S len), (data :: ds). split_and!.
      * rewrite Hn. f_equal. lia.
      * constructor; [unfold chunkData; by rewrite Hpart|].
        eapply Forall2_impl; [exact Hds|]. intros i d. unfold chunkData.
        destruct (chunks t !! i) as [q|] eqn:Hq; [|done]. simpl.
        unfold readFile. rewrite write_files_ne; [done|].
        intros ->. by apply Hout, (elem_of_chunkPaths _ i).
      * rewrite Hfile, write_files_eq by done. simpl. by rewrite app_assoc.
      * intros q Hq. rewrite Hrest by done. by rewrite write_files_ne.
Qed.

(** ** The assembler *)

Lemma createWriteStream_files_ne path w q :
  q ≠ path → files (createWriteStream path w) !! q = files w !! q.
Proof. intros Hne. simpl. by rewrite lookup_insert_ne. Qed.

Lemma appendFileData_total t wstream w :
  is_Some (Index.appendFileData (S (size (chunks t))) t wstream 1 w).
Proof.
  apply (appendFileData_settles t wstream ∅).
  - apply empty_subseteq.
  - intros j _. apply not_elem_of_empty.
  - rewrite size_empty. lia.
Qed.

Lemma getFinalFile_total tmpFilename folder t w :
  is_Some (Index.getFinalFile tmpFilename folder t w).
Proof.
  unfold Index.getFinalFile.
  destruct (getUniqueFilename_fresh tmpFilename folder w) as (out & -> & _).
  cbn [mbind option_bind].
  destruct (appendFileData_total t out (createWriteStream out w))
    as [[r w'] ->].
  by eexists.
Qed.

(** [Index.getFinalFile] unfolded: the fresh name, the opened stream, the
    settled loop. *)
Lemma getFinalFile_unfold tmpFilename folder t w :
  ∃ out r w',
    Index.getUniqueFilename tmpFilename folder w = Some out
    ∧ files w !! out = None
    ∧ Index.appendFileData (S (size (chunks t))) t out 1
        (createWriteStream out w) = Some (r, w')
    ∧ Index.getFinalFile tmpFilename folder t w
      = Some (match r with
              | Resolved _ => Resolved (mkFileData (filename t) out)
              | Rejected => Rejected
              end, w').
Proof.
  unfold Index.getFinalFile.
  destruct (getUniqueFilename_fresh tmpFilename folder w) as (out & Hout & Hfresh).
  destruct (appendFileData_total t out (createWriteStream out w))
    as [[r w'] Hrun].
  exists out, r, w'. rewrite Hout. cbn [mbind option_bind]. by rewrite Hrun.
Qed.

(** A complete set of stored chunk files is appended in index order to
    an output stream that is none of the chunk files, and the chunk files
    are removed. *)
Lemma appendFileData_assembles t w n out :
  count t = Some (N.of_nat n) → (1 ≤ n)%nat →
  (∀ i, i ∈ indices n → is_Some (chunks t !! i)) →
  (∀ path, path ∈ chunkPaths t → is_Some (files w !! path)) →
  out ∉ chunkPaths t →
  ∃ ds w',
    Index.appendFileData (S (size (chunks t))) t out 1 (createWriteStream out w)
      = Some (Resolved (), w')
    ∧ Forall2 (λ i d, chunkData t w i = Some d) (indices n) ds
    ∧ files w' !! out = Some (concat ds)
    ∧ (∀ path, path ≠ out →
         files w' !! path
         = if decide (path ∈ chunkPaths t) then None else files w !! path)
    ∧ handles w' = ({[out]} ∪ handles w) ∖ {[out]}.
Proof.
  intros Hcount Hn Hkeys Hstored Hnotchunk.
  destruct (appendFileData_total t out (createWriteStream out w))
    as [[r w'] Hrun].
  assert (r = Resolved ()) as ->.
  { eapply appendFileData_not_rejected; [exact Hrun|exact Hcount|lia|].
    intros i Hi. destruct (Hkeys i) as [path Hpath].
    { apply elem_of_indices. lia. }
    exists path. split_and!; [done| |].
    - intros ->. by apply Hnotchunk, (elem_of_chunkPaths _ i).
    - rewrite createWriteStream_files_ne.
      + by apply Hstored, (elem_of_chunkPaths _ i).
      + intros ->. by apply Hnotchunk, (elem_of_chunkPaths _ i). }
  destruct (appendFileData_resolved _ _ _ _ _ _ Hrun)
    as (len & ds & Hlen & Hds & Hfile & Hrest).
  { simpl. apply elem_of_union_l, elem_of_singleton. done. }
  { done. }
  assert (n = S len) as -> by (rewrite Hcount in Hlen; injection Hlen; lia).
  exists ds, w'. split_and!; [done| | | |].
  - eapply Forall2_impl; [exact Hds|]. intros i d. unfold chunkData.
    destruct (chunks t !! i) as [q|] eqn:Hq; [|done]. simpl. unfold readFile.
    rewrite createWriteStream_files_ne; [done|].
    intros ->. by apply Hnotchunk, (elem_of_chunkPaths _ i).
  - rewrite Hfile. simpl. by rewrite lookup_insert_eq.
  - intros path Hpath. rewrite Hrest by done.
    by rewrite createWriteStream_files_ne.
  - by destruct (appendFileData_stream _ _ _ _ _ _ _ Hrun) as [-> _].
Qed.

(** [Index.getFinalFile] on a complete set of stored chunk files: the
    output name is fresh, hence none of the chunk files. *)
Lemma getFinalFile_assembles tmpFilename folder t w n :
  count t = Some (N.of_nat n) → (1 ≤ n)%nat →
  (∀ i, i ∈ indices n → is_Some (chunks t !! i)) →
  (∀ path, path ∈ chunkPaths t → is_Some (files w !! path)) →
  ∃ out ds w',
    Index.getFinalFile tmpFilename folder t w
      = Some (Resolved (mkFileData (filename t) out), w')
    ∧ files w !! out = None
    ∧ Forall2 (λ i d, chunkData t w i = Some d) (indices n) ds
    ∧ files w' !! out = Some (concat ds)
    ∧ (∀ path, path ≠ out →
         files w' !! path
         = if decide (path ∈ chunkPaths t) then None else files w !! path)
    ∧ handles w' = ({[out]} ∪ handles w) ∖ {[out]}.
Proof.
  intros Hcount Hn Hkeys Hstored.
  destruct (getFinalFile_unfold tmpFilename folder t w)
    as (out & r & w' & Hout & Hfresh & Hrun & ->).
  destruct (appendFileData_assembles t w n out Hcount Hn Hkeys Hstored)
    as (ds & w'' & Hrun' & Hds & Hfile & Hrest & Hhandles).
  { intros [data Hdata]%Hstored. congruence. }
  rewrite Hrun' in Hrun. injection Hrun as <- <-.
  by exists out, ds, w''.
Qed.

(** [FileUtils.getFinalFile] assembles the same bytes, provided the name
    it gets from its allocator is none of the chunk files. *)
Lemma FileUtils_getFinalFile_assembles tmpFilename folder t w n name out :
  filename t = Some name →
  count t = Some (N.of_nat n) → (1 ≤ n)%nat →
  (∀ i, i ∈ indices n → is_Some (chunks t !! i)) →
  (∀ path, path ∈ chunkPaths t → is_Some (files w !! path)) →
  FileUtils.getUniqueFilename tmpFilename folder (FileUtils.extentionOf name) w
    = Some out →
  out ∉ chunkPaths t →
  ∃ ds w',
    FileUtils.getFinalFile tmpFilename folder t w
      = Some (Resolved (mkFileData (Some name) out), w')
    ∧ Forall2 (λ i d, chunkData t w i = Some d) (indices n) ds
    ∧ files w' !! out = Some (concat ds).
Proof.
  intros Hname Hcount Hn Hkeys Hstored Hout Hnotchunk.
  destruct (appendFileData_assembles t w n out Hcount Hn Hkeys Hstored
              Hnotchunk) as (ds & w' & Hrun & Hds & Hfile & _).
  exists ds, w'. split_and!; [|done..].
  unfold FileUtils.getFinalFile. rewrite Hname, Hout.
  cbn [mbind option_bind]. by rewrite appendFileData_agree, Hrun.
Qed.

Lemma write_keeps_files wstream data w path :
  is_Some (files w !! wstream) →
  is_Some (files (write wstream data w) !! path) ↔ is_Some (files w !! path).
Proof.
  intros Hout. unfold write. case_bool_decide; [|done]. simpl.
  destruct (decide (path = wstream)) as [->|Hne].
  - rewrite lookup_insert_eq. split; [done|by eexists].
  - by rewrite lookup_insert_ne.
Qed.

(** A rejected loop has removed nothing and written to nothing but its
    output, which is still there. *)
Lemma appendFileData_rejected_files fuel t wstream part w w' :
  Index.appendFileData fuel t wstream part w = Some (Rejected, w') →
  is_Some (files w !! wstream) →
  is_Some (files w' !! wstream)
  ∧ ∀ path, path ≠ wstream → files w' !! path = files w !! path.
Proof.
  revert part w. induction fuel as [|fuel IH]; intros part w; [done|].
  cbn [Index.appendFileData].
  destruct (chunks t !! part ≫= _) as [data|].
  - case_bool_decide; [done|]. intros Hrun Hout.
    destruct (IH _ _ Hrun) as [Hout' Hrest].
    { by apply write_keeps_files. }
    split; [done|]. intros path Hne. rewrite Hrest by done.
    by apply write_files_ne.
  - by intros [= <-].
Qed.

(** ** The registry *)

Lemma transmissionOf_setTransmission req t FT :
  transmissionOf (x_clientid req) (x_transid req) (Index.setTransmission req t FT)
  = Some t.
Proof.
  unfold transmissionOf, Index.setTransmission.
  rewrite lookup_insert_eq. simpl. by rewrite lookup_insert_eq.
Qed.

Lemma transmissionOf_setTransmission_ne req t FT clientId transId :
  (clientId, transId) ≠ (x_clientid req, x_transid req) →
  transmissionOf clientId transId (Index.setTransmission req t FT)
  = transmissionOf clientId transId FT.
Proof.
  intros Hne. unfold transmissionOf, Index.setTransmission.
  destruct (decide (clientId = x_clientid req)) as [->|Hc].
  - rewrite lookup_insert_eq. simpl.
    rewrite lookup_insert_ne by congruence.
    by destruct (FT !! x_clientid req).
  - by rewrite lookup_insert_ne.
Qed.

Lemma setTransmission_again req t t' FT :
  Index.setTransmission req t' (Index.setTransmission req t FT)
  = Index.setTransmission req t' FT.
Proof.
  unfold Index.setTransmission. rewrite lookup_insert_eq. simpl.
  by rewrite !insert_insert_eq.
Qed.

Lemma transmissionOf_forget req FT :
  transmissionOf (x_clientid req) (x_transid req) (Index.forget req FT) = None.
Proof.
  unfold transmissionOf, Index.forget. case_bool_decide.
  - by rewrite lookup_delete_eq.
  - rewrite lookup_insert_eq. simpl. by rewrite lookup_delete_eq.
Qed.

Lemma transmissionOf_forget_ne req FT clientId transId :
  (clientId, transId) ≠ (x_clientid req, x_transid req) →
  transmissionOf clientId transId (Index.forget req FT)
  = transmissionOf clientId transId FT.
Proof.
  intros Hne. unfold transmissionOf, Index.forget.
  destruct (decide (clientId = x_clientid req)) as [->|Hc].
  - assert (transId ≠ x_transid req) as Ht by congruence.
    case_bool_decide as Hempty.
    + rewrite lookup_delete_eq. simpl.
      apply map_size_empty_iff in Hempty.
      assert (delete (x_transid req) (default ∅ (FT !! x_clientid req))
                !! transId = None) as Hnone by (by rewrite Hempty).
      rewrite lookup_delete_ne in Hnone by done.
      destruct (FT !! x_clientid req); simpl in *; done.
    + rewrite lookup_insert_eq. simpl. rewrite lookup_delete_ne by done.
      by destruct (FT !! x_clientid req).
  - case_bool_decide.
    + by rewrite lookup_delete_ne.
    + by rewrite lookup_insert_ne.
Qed.

(** The client entry goes with its last transmission and stays
    otherwise. *)
Lemma forget_client req FT :
  Index.forget req FT !! x_clientid req
  = (let client := delete (x_transid req) (default ∅ (FT !! x_clientid req)) in
     if bool_decide (client = ∅) then None else Some client).
Proof.
  unfold Index.forget. cbn zeta. case_bool_decide as Hsize.
  - apply map_size_empty_iff in Hsize.
    rewrite bool_decide_eq_true_2 by done. by rewrite lookup_delete_eq.
  - rewrite bool_decide_eq_false_2.
    + by rewrite lookup_insert_eq.
    + intros Hempty. apply Hsize. by rewrite Hempty, map_size_empty.
Qed.

Lemma accounted_spec req FT :
  Index.accounted req FT
  = match transmissionOf (x_clientid req) (x_transid req) FT with
    | None =>
        mkTransmission (N.of_nat (length (payload req))) None None None ∅
    | Some t =>
        mkTransmission (cummulatedSize t + N.of_nat (length (payload req)))
          (count t) (filename t) (data t) (chunks t)
    end.
Proof.
  unfold Index.accounted, transmissionOf.
  by destruct (FT !! x_clientid req).
Qed.

(** ** One chunk arrival *)

Section Arrival.

Variable TMP_DIR : string.
Variable globalMaxFileSize : option N.
Variable JSON_parse : string → option Data.

Local Abbreviation recieveFile :=
  (Index.recieveFile TMP_DIR globalMaxFileSize JSON_parse).
Local Abbreviation recorded := (Index.recorded JSON_parse).
Local Abbreviation effectiveMax := (Index.effectiveMax globalMaxFileSize).

(** The reply and the state of a call, case by case. *)
Lemma recieveFile_unfold maxFileSize callback chunkName buildName req st :
  let t := Index.accounted req (FILE_TRANSMISSIONS st) in
  if Index.overQuota (effectiveMax maxFileSize) req t
  then
    recieveFile maxFileSize callback chunkName buildName req st
    = Some (QuotaExceeded,
            mkState (Index.forget req
                       (Index.setTransmission req t (FILE_TRANSMISSIONS st)))
              (world st))
  else
    ∃ fullFilename,
      Index.getUniqueFilename chunkName TMP_DIR (world st) = Some fullFilename
      ∧ files (world st) !! fullFilename = None
      ∧ let w := Index.writeChunk fullFilename (payload req) (world st) in
        let t' := recorded fullFilename req t in
        let FT := Index.setTransmission req t' (FILE_TRANSMISSIONS st) in
        if Index.allPartsProcessed t'
        then
          ∃ r w',
            Index.getFinalFile buildName TMP_DIR t' w = Some (r, w')
            ∧ recieveFile maxFileSize callback chunkName buildName req st
              = Some (Index.respond callback req
                        match r with
                        | Resolved filedata => Resolved (Some filedata)
                        | Rejected => Rejected
                        end (mkState FT w'))
        else
          recieveFile maxFileSize callback chunkName buildName req st
          = Some (Incomplete, mkState FT w).
Proof.
  intros t. unfold Index.recieveFile. fold t.
  destruct (Index.overQuota _ req t); [done|].
  destruct (getUniqueFilename_fresh chunkName TMP_DIR (world st))
    as (fullFilename & Hname & Hfresh).
  exists fullFilename. split_and!; [done..|]. cbn zeta.
  unfold Index.storeAndBuild. rewrite Hname. cbn [mbind option_bind].
  rewrite setTransmission_again.
  destruct (Index.allPartsProcessed _) eqn:Hall; [|done].
  destruct (getFinalFile_total buildName TMP_DIR
              (recorded fullFilename req t)
              (Index.writeChunk fullFilename (payload req) (world st)))
    as [[r w'] Hbuild].
  exists r, w'. split; [done|]. by rewrite Hbuild.
Qed.

(** Every call returns. *)
Lemma recieveFile_total maxFileSize callback chunkName buildName req st :
  is_Some (recieveFile maxFileSize callback chunkName buildName req st).
Proof.
  pose proof (recieveFile_unfold maxFileSize callback chunkName buildName
                req st) as H. cbn zeta in H.
  destruct (Index.overQuota _ _ _); [by eexists|].
  destruct H as (fullFilename & _ & _ & H).
  destruct (Index.allPartsProcessed _).
  - destruct H as (r & w' & _ & ->). by eexists.
  - by eexists.
Qed.

(** *** Completion is decided by the count *)

Lemma recorded_chunks fullFilename req t :
  chunks (recorded fullFilename req t)
  = <[x_partial req := fullFilename]> (chunks t).
Proof. unfold Index.recorded. by destruct (truthy (x_filename req)). Qed.

Lemma recorded_cummulatedSize fullFilename req t :
  cummulatedSize (recorded fullFilename req t) = cummulatedSize t.
Proof. unfold Index.recorded. by destruct (truthy (x_filename req)). Qed.

Lemma recorded_count fullFilename req t :
  count (recorded fullFilename req t)
  = if truthy (x_filename req) then Some (x_partial req) else count t.
Proof. unfold Index.recorded. by destruct (truthy (x_filename req)). Qed.

Lemma recorded_filename fullFilename req t :
  filename (recorded fullFilename req t)
  = if truthy (x_filename req) then x_filename req else filename t.
Proof. unfold Index.recorded. by destruct (truthy (x_filename req)). Qed.

Lemma truthy_Some s : truthy s = true → is_Some s.
Proof. destruct s as [[|]|]; by eauto. Qed.

Lemma recorded_terminalTogether fullFilename req t :
  terminalTogether t → terminalTogether (recorded fullFilename req t).
Proof.
  unfold Index.recorded, terminalTogether.
  destruct (truthy (x_filename req)) eqn:Hname; [|done].
  apply truthy_Some in Hname as [name ->]. done.
Qed.

Lemma accounted_terminalTogether req FT :
  wellFormed FT → terminalTogether (Index.accounted req FT).
Proof.
  intros Hwf. rewrite accounted_spec.
  destruct (transmissionOf _ _ FT) as [t|] eqn:Ht; [|done].
  apply Hwf in Ht. done.
Qed.

(** With the three terminal properties assigned together, the test
    [partCount && size()===(partCount+4)] says that the count is known
    and equals the number of chunk entries. *)
Lemma allPartsProcessed_complete t :
  terminalTogether t → chunks t ≠ ∅ →
  Index.allPartsProcessed t = true ↔ complete t.
Proof.
  intros Hwf Hnonempty.
  assert (size (chunks t) ≠ 0%nat) as Hsize.
  { by intros ?%map_size_empty_iff. }
  unfold Index.allPartsProcessed, complete, size_, terminalTogether in *.
  destruct (count t) as [n|], (filename t), (data t); try done; simpl.
  - rewrite andb_true_iff, negb_true_iff, N.eqb_neq, bool_decide_eq_true.
    split.
    + intros [_ Heq]. exists n. split; [done|lia].
    + intros (n' & [= <-] & Heq). lia.
  - split; [done|]. by intros (n' & [=] & _).
Qed.

Lemma wellFormed_setTransmission req t FT :
  wellFormed FT → terminalTogether t →
  wellFormed (Index.setTransmission req t FT).
Proof.
  intros Hwf Ht clientId transId t'.
  destruct (decide ((clientId, transId) = (x_clientid req, x_transid req)))
    as [[= -> ->]|Hne].
  - rewrite transmissionOf_setTransmission. by intros [= <-].
  - rewrite transmissionOf_setTransmission_ne by done. apply Hwf.
Qed.

Lemma wellFormed_forget req FT :
  wellFormed FT → wellFormed (Index.forget req FT).
Proof.
  intros Hwf clientId transId t'.
  destruct (decide ((clientId, transId) = (x_clientid req, x_transid req)))
    as [[= -> ->]|Hne].
  - by rewrite transmissionOf_forget.
  - rewrite transmissionOf_forget_ne by done. apply Hwf.
Qed.

Lemma recieveFile_wellFormed maxFileSize callback chunkName buildName req
    st reply st' :
  wellFormed (FILE_TRANSMISSIONS st) →
  recieveFile maxFileSize callback chunkName buildName req st
    = Some (reply, st') →
  wellFormed (FILE_TRANSMISSIONS st').
Proof.
  intros Hwf.
  pose proof (recieveFile_unfold maxFileSize callback chunkName buildName
                req st) as H. cbn zeta in H.
  pose proof (accounted_terminalTogether req _ Hwf) as Hacc.
  destruct (Index.overQuota _ _ _).
  - rewrite H. intros [= <- <-]. simpl.
    by apply wellFormed_forget, wellFormed_setTransmission.
  - destruct H as (fullFilename & _ & _ & H).
    assert (wellFormed (Index.setTransmission req
              (recorded fullFilename req
                 (Index.accounted req (FILE_TRANSMISSIONS st)))
              (FILE_TRANSMISSIONS st))) as Hwf'.
    { apply wellFormed_setTransmission; [done|].
      by apply recorded_terminalTogether. }
    destruct (Index.allPartsProcessed _).
    + destruct H as (r & w' & _ & ->). destruct r as [filedata|]; simpl.
      * intros [= <- <-]. simpl. by apply wellFormed_forget.
      * by intros [= <- <-].
    + rewrite H. by intros [= <- <-].
Qed.


(** Every registry reached from a well-formed one is well-formed. *)
Lemma run_wellFormed calls st replies st' :
  wellFormed (FILE_TRANSMISSIONS st) →
  Index.run TMP_DIR globalMaxFileSize JSON_parse calls st
    = Some (replies, st') →
  wellFormed (FILE_TRANSMISSIONS st').
Proof.
  revert st replies. induction calls as [|call calls IH];
    intros st replies Hwf Hrun.
  - by injection Hrun as <- <-.
  - cbn [Index.run] in Hrun.
    destruct (recieveFile _ _ _ _ _ st) as [[reply st1]|] eqn:Hstep; [|done].
    cbn [mbind option_bind] in Hrun.
    destruct (Index.run _ _ _ calls st1) as [[rs st2]|] eqn:Hrest; [|done].
    injection Hrun as <- <-.
    eapply IH; [|exact Hrest].
    eapply recieveFile_wellFormed; [exact Hwf|exact Hstep].
Qed.



(** *** The order of the steps *)

(** C4, as the code has it, for generated ids.  The payload length is
    added to [cummulatedSize] first and the quota is checked on that sum.
    When the check aborts, the aborting chunk is neither stored nor
    recorded: the call writes nothing, every file there is afterwards was
    there before with the same bytes, and the transmission is forgotten.
    Only when the check passes is the payload written to a fresh path and
    that path recorded under the chunk index, and it is that file and
    that record the assembler gets when the chunk completes the
    upload. *)
Theorem quota_checked_before_store maxFileSize callback chunkName
    buildName req st
    (Hids : generatedIds req) :
  let t := Index.accounted req (FILE_TRANSMISSIONS st) in
  cummulatedSize t
  = default 0 (cummulatedSize <$>
                 transmissionOf (x_clientid req) (x_transid req)
                   (FILE_TRANSMISSIONS st))
    + N.of_nat (length (payload req))
  ∧ if Index.overQuota (effectiveMax maxFileSize) req t
    then
      ∃ st',
        recieveFile maxFileSize callback chunkName buildName req st
          = Some (QuotaExceeded, st')
        ∧ files (world st') ⊆ files (world st)
        ∧ transmissionOf (x_clientid req) (x_transid req)
            (FILE_TRANSMISSIONS st') = None
    else
      ∃ fullFilename reply st',
        Index.getUniqueFilename chunkName TMP_DIR (world st)
          = Some fullFilename
        ∧ files (world st) !! fullFilename = None
        ∧ recieveFile maxFileSize callback chunkName buildName req st
          = Some (reply, st')
        ∧ reply ≠ QuotaExceeded
        ∧ (reply = Incomplete →
           files (world st') !! fullFilename = Some (payload req)
           ∧ ∃ t', transmissionOf (x_clientid req) (x_transid req)
                     (FILE_TRANSMISSIONS st') = Some t'
                   ∧ chunks t' !! x_partial req = Some fullFilename)
        ∧ (reply ≠ Incomplete →
           let w := Index.writeChunk fullFilename (payload req) (world st) in
           let t' := recorded fullFilename req t in
           files w !! fullFilename = Some (payload req)
           ∧ chunks t' !! x_partial req = Some fullFilename
           ∧ ∃ r w',
               Index.getFinalFile buildName TMP_DIR t' w = Some (r, w')
               ∧ reply = match r with
                         | Resolved filedata =>
                             Complete (tmpBuildFilename filedata)
                               (originalFilename filedata)
                         | Rejected => Error
                         end).
Proof.
  intros t. split.
  { unfold t. rewrite accounted_spec.
    destruct (transmissionOf _ _ _) as [t0|]; simpl; [done|lia]. }
  pose proof (recieveFile_unfold maxFileSize callback chunkName buildName
                req st) as H. cbn zeta in H. fold t in H.
  destruct (Index.overQuota _ req t).
  - eexists. split; [exact H|]. split; [done|]. simpl.
    apply transmissionOf_forget.
  - destruct H as (fullFilename & Hname & Hfresh & H).
    assert (files (Index.writeChunk fullFilename (payload req) (world st))
              !! fullFilename = Some (payload req)) as Hstored.
    { rewrite writeChunk_files. apply lookup_insert_eq. }
    assert (chunks (recorded fullFilename req t) !! x_partial req
            = Some fullFilename) as Hrecorded.
    { rewrite recorded_chunks. apply lookup_insert_eq. }
    destruct (Index.allPartsProcessed _).
    + destruct H as (r & w' & Hbuild & Hrun).
      destruct r as [filedata|]; simpl in Hrun;
        (eexists fullFilename, _, _;
         split_and!; [done|done|exact Hrun|done|done|]);
        intros _; cbn zeta; (split_and!; [done..|]); eexists _, w';
        (split; [exact Hbuild|done]).
    + eexists fullFilename, _, _.
      split_and!; [done|done|exact H|done| |done].
      intros _. cbn [world FILE_TRANSMISSIONS]. split; [done|].
      eexists. split; [apply transmissionOf_setTransmission|done].
Qed.

(** *** Metadata that does not parse *)


End Arrival.

(** ** A whole upload *)

Lemma receivedBytes_app reqs r :
  receivedBytes (reqs ++ [r])
  = receivedBytes reqs + N.of_nat (length (payload r)).
Proof.
  unfold receivedBytes. induction reqs as [|q reqs IH]; simpl; [lia|].
  rewrite IH. lia.
Qed.

Lemma payloadOf_app_new reqs r i :
  x_partial r ∉ x_partial <$> reqs →
  payloadOf (reqs ++ [r]) i
  = if decide (i = x_partial r) then payload r else payloadOf reqs i.
Proof.
  induction reqs as [|q reqs IH]; simpl; intros Hnew.
  - destruct (N.eqb_spec (x_partial r) i), (decide (i = x_partial r));
      congruence.
  - apply not_elem_of_cons in Hnew as [Hne Hnew].
    destruct (N.eqb_spec (x_partial q) i) as [Heq|Hneq].
    + rewrite decide_False; [done|]. congruence.
    + by apply IH.
Qed.

Lemma overQuota_false max r t :
  Index.overQuota max r t = false
  ↔ (∀ total, x_total_size r = Some total → total ≤ max)
    ∧ cummulatedSize t ≤ max.
Proof.
  unfold Index.overQuota. rewrite orb_false_iff, N.ltb_ge.
  destruct (x_total_size r) as [total|].
  - rewrite N.ltb_ge. split.
    + intros [Ht Hc]. split; [|done]. by intros ? [= <-].
    + intros [Ht Hc]. split; [|done]. by apply Ht.
  - split.
    + intros [_ Hc]. by split.
    + intros [_ Hc]. by split.
Qed.

Lemma accounted_fields r FT :
  let o := transmissionOf (x_clientid r) (x_transid r) FT in
  cummulatedSize (Index.accounted r FT)
  = sizeOf o + N.of_nat (length (payload r))
  ∧ chunks (Index.accounted r FT) = chunksOf o
  ∧ count (Index.accounted r FT) = o ≫= count
  ∧ filename (Index.accounted r FT) = o ≫= filename
  ∧ ((∀ t, o = Some t → terminalTogether t) →
     terminalTogether (Index.accounted r FT)).
Proof.
  intros o. rewrite accounted_spec. fold o.
  destruct o as [t|]; simpl; split_and!; try done.
  intros Hwf. by apply (Hwf t).
Qed.

Lemma chunksOf_Some t : chunksOf (Some t) = chunks t.
Proof. reflexivity. Qed.

Lemma sizeOf_Some t : sizeOf (Some t) = cummulatedSize t.
Proof. reflexivity. Qed.

Section Upload.

Variable TMP_DIR : string.
Variable globalMaxFileSize : option N.
Variable JSON_parse : string → option Data.
Variables clientId transId : string.
Variable n : N.
Variable name : string.
Hypothesis Hname : truthy (Some name) = true.

Local Abbreviation recorded := (Index.recorded JSON_parse).

(** Storing one more chunk of the upload keeps every recorded path
    holding the payload of its index. *)
Lemma storedSoFar_step reqs r st fullFilename :
  storedSoFar clientId transId n name reqs st →
  sentBy clientId transId n name r →
  x_partial r ∉ x_partial <$> reqs →
  files (world st) !! fullFilename = None →
  let t := Index.accounted r (FILE_TRANSMISSIONS st) in
  cummulatedSize t = receivedBytes (reqs ++ [r])
  ∧ storedSoFar clientId transId n name (reqs ++ [r])
      (mkState
         (Index.setTransmission r (recorded fullFilename r t)
            (FILE_TRANSMISSIONS st))
         (Index.writeChunk fullFilename (payload r) (world st))).
Proof.
  intros (Hsize & Hdom & Hfiles & Hcount & Hfname & Hwf)
         (Hc & Ht & Hterm & Hnonterm) Hnew Hfresh t.
  destruct (accounted_fields r (FILE_TRANSMISSIONS st))
    as (Hacc_size & Hacc_chunks & Hacc_count & Hacc_name & Hacc_wf).
  rewrite Hc, Ht in Hacc_size, Hacc_chunks, Hacc_count, Hacc_name, Hacc_wf.
  fold t in Hacc_size, Hacc_chunks, Hacc_count, Hacc_name, Hacc_wf.
  assert (cummulatedSize t = receivedBytes (reqs ++ [r])) as Hsum.
  { rewrite Hacc_size, Hsize, receivedBytes_app. done. }
  split; [done|].
  unfold storedSoFar. cbn [FILE_TRANSMISSIONS world].
  rewrite <- Hc, <- Ht, transmissionOf_setTransmission.
  assert (n ∈ x_partial <$> reqs ++ [r]
          ↔ n = x_partial r ∨ n ∈ x_partial <$> reqs) as Hmem.
  { rewrite fmap_app, elem_of_app.
    change (x_partial <$> [r]) with [x_partial r].
    rewrite list_elem_of_singleton. tauto. }
  split_and!.
  - by rewrite sizeOf_Some, recorded_cummulatedSize.
  - rewrite chunksOf_Some, recorded_chunks, dom_insert_L.
    rewrite Hacc_chunks, Hdom, fmap_app, list_to_set_app_L.
    change (list_to_set (x_partial <$> [r]))
      with ({[x_partial r]} ∪ ∅ : gset N).
    rewrite (right_id_L ∅ (∪)). apply (comm_L (∪)).
  - intros i path.
    rewrite chunksOf_Some, recorded_chunks, writeChunk_files,
      payloadOf_app_new by done.
    destruct (decide (i = x_partial r)) as [->|Hne].
    + rewrite lookup_insert_eq. intros [= <-]. by rewrite lookup_insert_eq.
    + rewrite lookup_insert_ne by done. rewrite Hacc_chunks.
      intros Hpath. pose proof (Hfiles _ _ Hpath) as Hold.
      rewrite lookup_insert_ne; [done|]. intros ->. congruence.
  - simpl. rewrite recorded_count.
    destruct (decide (x_partial r = n)) as [Heq|Hne].
    + rewrite (Hterm Heq), Hname, Heq.
      rewrite bool_decide_eq_true_2; [done|]. apply Hmem. by left.
    + rewrite (Hnonterm Hne), Hacc_count, Hcount.
      rewrite (bool_decide_ext _ (n ∈ x_partial <$> reqs ++ [r])); [done|].
      rewrite Hmem. split; [tauto|].
      intros [?|?]; [congruence|done].
  - simpl. rewrite recorded_filename.
    destruct (decide (x_partial r = n)) as [Heq|Hne].
    + rewrite (Hterm Heq), Hname.
      rewrite bool_decide_eq_true_2; [done|]. apply Hmem. by left.
    + rewrite (Hnonterm Hne), Hacc_name, Hfname.
      rewrite (bool_decide_ext _ (n ∈ x_partial <$> reqs ++ [r])); [done|].
      rewrite Hmem. split; [tauto|].
      intros [?|?]; [congruence|done].
  - intros t' [= <-]. apply recorded_terminalTogether. by apply Hacc_wf.
Qed.


Local Abbreviation recieveFile :=
  (Index.recieveFile TMP_DIR globalMaxFileSize JSON_parse).
Local Abbreviation run := (Index.run TMP_DIR globalMaxFileSize JSON_parse).
Local Abbreviation effectiveMax := (Index.effectiveMax globalMaxFileSize).

Local Abbreviation withinQuota := (withinQuota globalMaxFileSize).

Lemma receivedBytes_app_le reqs reqs' :
  receivedBytes reqs ≤ receivedBytes (reqs ++ reqs').
Proof.
  unfold receivedBytes. induction reqs as [|q reqs IH]; simpl; lia.
Qed.

Lemma storedSoFar_size reqs st t :
  storedSoFar clientId transId n name reqs st →
  NoDup (x_partial <$> reqs) →
  transmissionOf clientId transId (FILE_TRANSMISSIONS st) = Some t →
  size (chunks t) = length reqs.
Proof.
  intros (_ & Hdom & _) Hnodup Ht. rewrite Ht, chunksOf_Some in Hdom.
  rewrite <- size_dom, Hdom, size_list_to_set by done.
  by rewrite length_fmap.
Qed.

(** While fewer than [n] chunks are there, every arrival within the
    quota is stored and answered with the incomplete signal. *)
Lemma upload_in_progress rest reqs st :
  storedSoFar clientId transId n name reqs st →
  NoDup (x_partial <$> reqs ++ (Index.call_request <$> rest)) →
  Forall (sentBy clientId transId n name) (Index.call_request <$> rest) →
  Forall (withinQuota (receivedBytes (reqs ++ (Index.call_request <$> rest))))
    rest →
  N.of_nat (length reqs + length rest) < n →
  ∃ st',
    run rest st = Some (replicate (length rest) Incomplete, st')
    ∧ storedSoFar clientId transId n name
        (reqs ++ (Index.call_request <$> rest)) st'.
Proof.
  revert reqs st. induction rest as [|call rest IH];
    intros reqs st Hinv Hnodup Hsent Hquota Hlen.
  - exists st. split; [done|]. simpl. by rewrite app_nil_r.
  - rewrite fmap_cons in *. set (r := Index.call_request call) in *.
    apply Forall_cons in Hsent as [Hr Hsent].
    apply Forall_cons in Hquota as [[Hmax Hdeclared] Hquota].
    assert (x_partial r ∉ x_partial <$> reqs) as Hnew.
    { rewrite fmap_app, fmap_cons in Hnodup.
      apply NoDup_app in Hnodup as (_ & Hdisj & _).
      intros Hin. apply (Hdisj _ Hin). apply elem_of_cons. by left. }
    rewrite (cons_middle r), app_assoc in Hnodup, Hquota, Hmax |- *.
    pose proof (recieveFile_unfold TMP_DIR globalMaxFileSize JSON_parse
                  (Index.call_max call) (Index.call_callback call)
                  (Index.call_chunkName call) (Index.call_buildName call)
                  r st) as H. cbn zeta in H.
    assert (∀ fullFilename, files (world st) !! fullFilename = None →
              cummulatedSize (Index.accounted r (FILE_TRANSMISSIONS st))
              = receivedBytes (reqs ++ [r])) as Hsum.
    { intros fullFilename Hfresh.
      by destruct (storedSoFar_step reqs r st fullFilename Hinv Hr Hnew Hfresh). }
    destruct (getUniqueFilename_fresh (Index.call_chunkName call) TMP_DIR
                (world st)) as (fullFilename0 & _ & Hfresh0).
    rewrite (proj2 (overQuota_false _ _ _)) in H.
    2:{ split; [done|]. rewrite (Hsum _ Hfresh0).
        etrans; [apply receivedBytes_app_le|exact Hmax]. }
    destruct H as (fullFilename & Hfile & Hfresh & H).
    destruct (storedSoFar_step reqs r st fullFilename Hinv Hr Hnew Hfresh)
      as [_ Hinv'].
    set (t' := recorded fullFilename r
                 (Index.accounted r (FILE_TRANSMISSIONS st))) in *.
    assert (transmissionOf clientId transId
              (Index.setTransmission r t' (FILE_TRANSMISSIONS st)) = Some t')
      as Ht'.
    { destruct Hr as (<- & <- & _). apply transmissionOf_setTransmission. }
    assert (Index.allPartsProcessed t' = false) as Hnotall.
    { apply not_true_is_false. intros Hall.
      apply allPartsProcessed_complete in Hall as (m & Hm & Hsize).
      - pose proof Hinv' as (_ & _ & _ & Hcount & _).
        cbn [FILE_TRANSMISSIONS] in Hcount. rewrite Ht' in Hcount.
        simpl in Hcount. rewrite Hm in Hcount.
        rewrite (storedSoFar_size _ _ _ Hinv') in Hsize.
        + rewrite length_app in Hsize. simpl in *.
          case_bool_decide; [|done]. injection Hcount as ->. lia.
        + rewrite fmap_app in Hnodup. by apply NoDup_app in Hnodup as [? _].
        + done.
      - destruct Hinv' as (_ & _ & _ & _ & _ & Hwf). by apply Hwf.
      - unfold t'. rewrite recorded_chunks. apply insert_non_empty. }
    rewrite Hnotall in H.
    destruct (IH (reqs ++ [r]) _ Hinv' Hnodup Hsent Hquota) as (st' & Hrun & Hfinal).
    { rewrite length_app. simpl in *. lia. }
    exists st'. split; [|done].
    cbn [Index.run]. fold r. rewrite H. cbn [mbind option_bind].
    by rewrite Hrun.
Qed.


Lemma run_app calls calls' st :
  run (calls ++ calls') st
  = '(rs, st1) ← run calls st;
    '(rs', st2) ← run calls' st1;
    Some (rs ++ rs', st2).
Proof.
  revert st. induction calls as [|call calls IH]; intros st.
  - cbn [app Index.run mbind option_bind].
    destruct (run calls' st) as [[rs' st2]|]; done.
  - cbn [app Index.run].
    destruct (recieveFile _ _ _ _ _ st) as [[reply st1]|]; [|done].
    cbn [mbind option_bind]. rewrite IH.
    destruct (run calls st1) as [[rs st2]|]; [|done].
    cbn [mbind option_bind].
    destruct (run calls' st2) as [[rs' st3]|]; done.
Qed.

Lemma Forall2_Some_fmap {A B} (g : A → option B) (f : A → B) l ds :
  Forall2 (λ i d, g i = Some d) l ds →
  (∀ i, i ∈ l → g i = Some (f i)) →
  ds = f <$> l.
Proof.
  induction 1 as [|i d l ds Hd _ IH]; intros Hf; [done|].
  rewrite fmap_cons. f_equal.
  - rewrite Hf in Hd by (apply elem_of_cons; by left). congruence.
  - apply IH. intros j Hj. apply Hf, elem_of_cons. by right.
Qed.

Lemma storedSoFar_nil st :
  transmissionOf clientId transId (FILE_TRANSMISSIONS st) = None →
  storedSoFar clientId transId n name [] st.
Proof.
  intros Hnone. unfold storedSoFar. rewrite Hnone. split_and!; try done.
Qed.

(** The arrival of the last missing chunk: the chunk is stored, the
    assembler builds the file from the chunk files in index order, and
    the reply is the complete signal. *)
Lemma upload_completes reqs call st :
  let r := Index.call_request call in
  storedSoFar clientId transId n name reqs st →
  sentBy clientId transId n name r →
  x_partial <$> reqs ++ [r] ≡ₚ indices (N.to_nat n) →
  withinQuota (receivedBytes (reqs ++ [r])) call →
  ∃ out st_built,
    Index.storeAndBuild TMP_DIR JSON_parse (Index.call_chunkName call)
      (Index.call_buildName call) r
      (Index.accounted r (FILE_TRANSMISSIONS st))
      (Index.setTransmission r (Index.accounted r (FILE_TRANSMISSIONS st))
         (FILE_TRANSMISSIONS st))
      (world st)
    = Some (Resolved (Some (mkFileData (Some name) out)), st_built)
    ∧ files (world st_built) !! out
      = Some (concat (payloadOf (reqs ++ [r]) <$> indices (N.to_nat n)))
    ∧ recieveFile (Index.call_max call) (Index.call_callback call)
        (Index.call_chunkName call) (Index.call_buildName call) r st
      = Some (Index.respond (Index.call_callback call) r
                (Resolved (Some (mkFileData (Some name) out))) st_built).
Proof.
  intros r Hinv Hr Hperm [Hmax Hdeclared]. fold r in Hdeclared.
  assert (NoDup (x_partial <$> reqs ++ [r])) as Hnodup.
  { rewrite Hperm. apply NoDup_partsFrom. }
  assert (length reqs + 1 = N.to_nat n)%nat as Hlen.
  { apply Permutation_length in Hperm.
    rewrite length_fmap, length_app in Hperm. simpl in Hperm.
    unfold indices in Hperm. by rewrite length_partsFrom in Hperm. }
  assert (x_partial r ∉ x_partial <$> reqs) as Hnew.
  { rewrite fmap_app in Hnodup. apply NoDup_app in Hnodup as (_ & Hdisj & _).
    intros Hin. apply (Hdisj _ Hin). apply elem_of_cons. by left. }
  destruct (getUniqueFilename_fresh (Index.call_chunkName call) TMP_DIR
              (world st)) as (fullFilename & Hfile & Hfresh).
  destruct (storedSoFar_step reqs r st fullFilename Hinv Hr Hnew Hfresh)
    as [Hsum Hinv'].
  set (t := Index.accounted r (FILE_TRANSMISSIONS st)) in *.
  set (t' := recorded fullFilename r t) in *.
  set (w1 := Index.writeChunk fullFilename (payload r) (world st)) in *.
  assert (transmissionOf clientId transId
            (Index.setTransmission r t' (FILE_TRANSMISSIONS st)) = Some t')
    as Ht'.
  { destruct Hr as (<- & <- & _). apply transmissionOf_setTransmission. }
  pose proof Hinv' as (_ & Hdom & Hfiles & Hcount & Hfname & Hwf).
  cbn [FILE_TRANSMISSIONS world] in Hdom, Hfiles, Hcount, Hfname, Hwf.
  rewrite Ht' in Hdom, Hfiles, Hcount, Hfname, Hwf.
  rewrite chunksOf_Some in Hdom, Hfiles. simpl in Hcount, Hfname.
  assert (n ∈ x_partial <$> reqs ++ [r]) as Hin.
  { rewrite Hperm. apply elem_of_indices. lia. }
  rewrite bool_decide_eq_true_2 in Hcount, Hfname by done.
  assert (size (chunks t') = N.to_nat n) as Hsize.
  { rewrite (storedSoFar_size _ _ _ Hinv' Hnodup Ht'), length_app. simpl. lia. }
  assert (Index.allPartsProcessed t' = true) as Hall.
  { apply allPartsProcessed_complete.
    - by apply Hwf.
    - unfold t'. rewrite recorded_chunks. apply insert_non_empty.
    - exists n. split; [done|]. rewrite Hsize. lia. }
  destruct (getFinalFile_assembles (Index.call_buildName call) TMP_DIR t' w1
              (N.to_nat n)) as (out & ds & w' & Hbuild & _ & Hds & Hout & _).
  { rewrite Hcount. f_equal. lia. }
  { lia. }
  { intros i Hi. apply elem_of_dom. rewrite Hdom, elem_of_list_to_set.
    by rewrite Hperm. }
  { intros path [i Hi]%chunkPaths_elem_of. rewrite (Hfiles _ _ Hi). by eexists. }
  rewrite Hfname in Hbuild.
  assert (Index.storeAndBuild TMP_DIR JSON_parse (Index.call_chunkName call)
            (Index.call_buildName call) r t
            (Index.setTransmission r t (FILE_TRANSMISSIONS st)) (world st)
          = Some (Resolved (Some (mkFileData (Some name) out)),
                  mkState (Index.setTransmission r t' (FILE_TRANSMISSIONS st))
                    w')) as Hstore.
  { unfold Index.storeAndBuild. rewrite Hfile. cbn [mbind option_bind].
    fold w1 t'. rewrite Hall, Hbuild. cbn [mbind option_bind].
    by rewrite setTransmission_again. }
  eexists out, _. split; [exact Hstore|]. split.
  - cbn [world]. rewrite Hout. do 2 f_equal.
    eapply Forall2_Some_fmap; [exact Hds|].
    intros i Hi. unfold chunkData.
    assert (is_Some (chunks t' !! i)) as [path Hpath].
    { apply elem_of_dom. rewrite Hdom, elem_of_list_to_set. by rewrite Hperm. }
    rewrite Hpath. simpl. unfold readFile. by apply Hfiles.
  - unfold Index.recieveFile. fold t.
    rewrite (proj2 (overQuota_false _ _ _)).
    2:{ split; [done|]. by rewrite Hsum. }
    rewrite Hstore. done.
Qed.



(** *** The counted size *)

(** An arrival that neither aborts nor completes leaves the
    transmission recorded with this chunk. *)
Lemma recieveFile_live maxFileSize callback chunkName buildName r st
    reply st' :
  recieveFile maxFileSize callback chunkName buildName r st
    = Some (reply, st') →
  reply = Incomplete ∨ reply = Error →
  ∃ fullFilename,
    transmissionOf (x_clientid r) (x_transid r) (FILE_TRANSMISSIONS st')
    = Some (recorded fullFilename r
              (Index.accounted r (FILE_TRANSMISSIONS st))).
Proof.
  intros Hrun Hlive.
  pose proof (recieveFile_unfold TMP_DIR globalMaxFileSize JSON_parse
                maxFileSize callback chunkName buildName r st) as H.
  cbn zeta in H. destruct (Index.overQuota _ _ _).
  - rewrite H in Hrun. injection Hrun as <- <-. by destruct Hlive.
  - destruct H as (fullFilename & _ & _ & H). exists fullFilename.
    destruct (Index.allPartsProcessed _).
    + destruct H as (res & w' & _ & H). rewrite H in Hrun.
      destruct res as [filedata|]; simpl in Hrun; injection Hrun as <- <-.
      * by destruct Hlive.
      * apply transmissionOf_setTransmission.
    + rewrite H in Hrun. injection Hrun as <- <-.
      apply transmissionOf_setTransmission.
Qed.

Lemma cumulative_size_grows calls st replies st' :
  Forall (λ call, x_clientid (Index.call_request call) = clientId
                  ∧ x_transid (Index.call_request call) = transId) calls →
  run calls st = Some (replies, st') →
  Forall (λ reply, reply = Incomplete ∨ reply = Error) replies →
  let o := transmissionOf clientId transId (FILE_TRANSMISSIONS st) in
  let o' := transmissionOf clientId transId (FILE_TRANSMISSIONS st') in
  sizeOf o' = sizeOf o + receivedBytes (Index.call_request <$> calls)
  ∧ dom (chunksOf o')
    = dom (chunksOf o)
      ∪ list_to_set (x_partial <$> (Index.call_request <$> calls))
  ∧ (calls ≠ [] → is_Some o').
Proof.
  revert st replies. induction calls as [|call calls IH];
    intros st replies Hpair Hrun Hlive.
  - injection Hrun as <- <-. simpl. split_and!; [lia| |done].
    by rewrite (right_id_L ∅ (∪)).
  - apply Forall_cons in Hpair as [[Hc Ht] Hpair].
    cbn [Index.run] in Hrun.
    destruct (recieveFile _ _ _ _ _ st) as [[reply st1]|] eqn:Hstep; [|done].
    cbn [mbind option_bind] in Hrun.
    destruct (run calls st1) as [[rs st2]|] eqn:Hrest; [|done].
    injection Hrun as <- <-. apply Forall_cons in Hlive as [Hreply Hlive].
    destruct (recieveFile_live _ _ _ _ _ _ _ _ Hstep Hreply)
      as (fullFilename & Hst1).
    rewrite Hc, Ht in Hst1.
    destruct (IH _ _ Hpair Hrest Hlive) as (Hsize & Hdom & Hsome).
    destruct (accounted_fields (Index.call_request call)
                (FILE_TRANSMISSIONS st)) as (Hacc_size & Hacc_chunks & _).
    rewrite Hc, Ht in Hacc_size, Hacc_chunks.
    rewrite Hst1 in Hsize, Hdom.
    rewrite sizeOf_Some, recorded_cummulatedSize, Hacc_size in Hsize.
    rewrite chunksOf_Some, recorded_chunks, dom_insert_L, Hacc_chunks in Hdom.
    cbn zeta. rewrite !fmap_cons. split_and!.
    + rewrite Hsize. unfold receivedBytes. simpl. lia.
    + rewrite Hdom. simpl.
      by rewrite (assoc_L (∪)), (comm_L (∪) {[_]}).
    + intros _. destruct calls as [|call' calls'].
      * injection Hrest as <- <-. rewrite Hst1. by eexists.
      * by apply Hsome.
Qed.

(** An arrival that neither aborts nor completes has written its
    payload to a path that was free and left every file that was there
    as it was. *)
Lemma recieveFile_live_files maxFileSize callback chunkName buildName r st
    reply st' :
  recieveFile maxFileSize callback chunkName buildName r st
    = Some (reply, st') →
  reply = Incomplete ∨ reply = Error →
  ∃ fullFilename,
    files (world st) !! fullFilename = None
    ∧ transmissionOf (x_clientid r) (x_transid r) (FILE_TRANSMISSIONS st')
      = Some (recorded fullFilename r
                (Index.accounted r (FILE_TRANSMISSIONS st)))
    ∧ files (world st') !! fullFilename = Some (payload r)
    ∧ ∀ path, is_Some (files (world st) !! path) →
              files (world st') !! path = files (world st) !! path.
Proof.
  intros Hrun Hlive.
  pose proof (recieveFile_unfold TMP_DIR globalMaxFileSize JSON_parse
                maxFileSize callback chunkName buildName r st) as H.
  cbn zeta in H. destruct (Index.overQuota _ _ _).
  - rewrite H in Hrun. injection Hrun as <- <-. by destruct Hlive.
  - destruct H as (fullFilename & _ & Hfresh & H). exists fullFilename.
    assert (∀ path, is_Some (files (world st) !! path) → path ≠ fullFilename)
      as Hold.
    { intros path Hpath ->. rewrite Hfresh in Hpath. by destruct Hpath. }
    set (w1 := Index.writeChunk fullFilename (payload r) (world st)) in *.
    assert (files w1 !! fullFilename = Some (payload r)) as Hw1.
    { unfold w1. by rewrite writeChunk_files, lookup_insert_eq. }
    assert (∀ path, is_Some (files (world st) !! path) →
                    files w1 !! path = files (world st) !! path) as Hkept.
    { intros path Hpath. unfold w1.
      rewrite writeChunk_files, lookup_insert_ne; [done|].
      intros <-. by apply (Hold _ Hpath). }
    destruct (Index.allPartsProcessed _).
    + destruct H as (res & w' & Hbuild & H). rewrite H in Hrun.
      destruct res as [filedata|]; simpl in Hrun; injection Hrun as <- <-.
      { by destruct Hlive. }
      cbn [world FILE_TRANSMISSIONS].
      destruct (getFinalFile_unfold buildName TMP_DIR
                  (recorded fullFilename r
                     (Index.accounted r (FILE_TRANSMISSIONS st))) w1)
        as (out & r0 & w'' & _ & Hfree & Happend & Heq).
      rewrite Heq in Hbuild. destruct r0 as [[]|]; [done|].
      injection Hbuild as <-.
      destruct (appendFileData_rejected_files _ _ _ _ _ _ Happend)
        as [_ Hrest].
      { simpl. rewrite lookup_insert_eq. by eexists. }
      assert (∀ path, is_Some (files w1 !! path) →
                      files w'' !! path = files w1 !! path) as Hkept'.
      { intros path Hpath. rewrite Hrest.
        - apply createWriteStream_files_ne. intros ->.
          rewrite Hfree in Hpath. by destruct Hpath.
        - intros ->. rewrite Hfree in Hpath. by destruct Hpath. }
      split_and!; [done|apply transmissionOf_setTransmission| |].
      * rewrite Hkept'; [done|]. rewrite Hw1. by eexists.
      * intros path Hpath. rewrite Hkept'; [by apply Hkept|].
        by rewrite Hkept.
    + rewrite H in Hrun. injection Hrun as <- <-.
      cbn [world FILE_TRANSMISSIONS].
      split_and!; [done|apply transmissionOf_setTransmission|done|done].
Qed.

Lemma latestPayloadOf_snoc reqs r i :
  latestPayloadOf (reqs ++ [r]) i
  = if decide (i = x_partial r) then payload r else latestPayloadOf reqs i.
Proof.
  unfold latestPayloadOf. rewrite reverse_snoc. cbn [payloadOf].
  destruct (N.eqb_spec (x_partial r) i), (decide (i = x_partial r));
    congruence.
Qed.

(** Every chunk entry points to a file that holds the payload of the
    latest arrival with that index. *)
Lemma entries_hold_latest calls st replies st' earlier :
  Forall (λ call, x_clientid (Index.call_request call) = clientId
                  ∧ x_transid (Index.call_request call) = transId) calls →
  run calls st = Some (replies, st') →
  Forall (λ reply, reply = Incomplete ∨ reply = Error) replies →
  (∀ i path,
     chunksOf (transmissionOf clientId transId (FILE_TRANSMISSIONS st)) !! i
     = Some path →
     files (world st) !! path = Some (latestPayloadOf earlier i)) →
  ∀ i path,
    chunksOf (transmissionOf clientId transId (FILE_TRANSMISSIONS st')) !! i
    = Some path →
    files (world st') !! path
    = Some (latestPayloadOf (earlier ++ (Index.call_request <$> calls)) i).
Proof.
  revert st replies earlier. induction calls as [|call calls IH];
    intros st replies earlier Hpair Hrun Hlive Hinv.
  - injection Hrun as <- <-. simpl. by rewrite app_nil_r.
  - apply Forall_cons in Hpair as [[Hc Ht] Hpair].
    cbn [Index.run] in Hrun.
    destruct (recieveFile _ _ _ _ _ st) as [[reply st1]|] eqn:Hstep; [|done].
    cbn [mbind option_bind] in Hrun.
    destruct (run calls st1) as [[rs st2]|] eqn:Hrest; [|done].
    injection Hrun as <- <-. apply Forall_cons in Hlive as [Hreply Hlive].
    destruct (recieveFile_live_files _ _ _ _ _ _ _ _ Hstep Hreply)
      as (fullFilename & Hfresh & Hst1 & Hnew & Hkept).
    rewrite Hc, Ht in Hst1.
    destruct (accounted_fields (Index.call_request call)
                (FILE_TRANSMISSIONS st)) as (_ & Hacc_chunks & _).
    rewrite Hc, Ht in Hacc_chunks.
    rewrite fmap_cons, (cons_middle (Index.call_request call)), app_assoc.
    apply (IH st1 rs); [done..|].
    intros i path. rewrite Hst1, chunksOf_Some, recorded_chunks, Hacc_chunks.
    rewrite latestPayloadOf_snoc.
    destruct (decide (i = x_partial (Index.call_request call))) as [->|Hne].
    + rewrite lookup_insert_eq. by intros [= <-].
    + rewrite lookup_insert_ne by done. intros Hpath.
      pose proof (Hinv _ _ Hpath) as Hold.
      rewrite Hkept; [done|]. rewrite Hold. by eexists.
Qed.


End Upload.

(** ** The output stream of the assembler *)

(** Closed statements about the example uploads are settled by running
    the model, one conjunct after the other, so that a state found by the
    first conjunct is known to the next ones. *)
Ltac by_evaluation :=
  repeat (split; [vm_compute; reflexivity|]); vm_compute; reflexivity.

Lemma FileUtils_getFinalFile_unfold tmpFilename folder t w name :
  filename t = Some name →
  ∃ out r w',
    FileUtils.getUniqueFilename tmpFilename folder
      (FileUtils.extentionOf name) w = Some out
    ∧ Index.appendFileData (S (size (chunks t))) t out 1
        (createWriteStream out w) = Some (r, w')
    ∧ FileUtils.getFinalFile tmpFilename folder t w
      = Some (match r with
              | Resolved _ => Resolved (mkFileData (filename t) out)
              | Rejected => Rejected
              end, w').
Proof.
  intros Hname. unfold FileUtils.getFinalFile. rewrite Hname.
  rewrite getUniqueFilename_extention.
  destruct (getUniqueFilename_fresh tmpFilename folder w) as (base & -> & _).
  cbn [fmap option_fmap option_map mbind option_bind].
  set (out := base +:+ _).
  rewrite appendFileData_agree.
  destruct (appendFileData_total t out (createWriteStream out w))
    as [[r w'] Hrun].
  exists out, r, w'. rewrite Hrun. done.
Qed.

Lemma createWriteStream_open path w : path ∈ handles (createWriteStream path w).
Proof. simpl. apply elem_of_union_l, elem_of_singleton. done. Qed.

(** Both versions of [getFinalFile] settle.  When they resolve, the
    output stream has been ended and every index from 1 to [count] is
    recorded.  When the loop is rejected by a failed read, nothing has
    ended the stream: it is still open in the world the rejection leaves
    behind. *)
Lemma output_stream_closed_on_success_only tmpFilename folder t w :
  match Index.getFinalFile tmpFilename folder t w with
  | Some (Resolved filedata, w') =>
      (tmpBuildFilename filedata ∉ handles w')
      ∧ ∃ m, count t = Some m
             ∧ ∀ i, 1 ≤ i ≤ m → is_Some (chunks t !! i)
  | Some (Rejected, w') =>
      ∃ out, Index.getUniqueFilename tmpFilename folder w = Some out
             ∧ out ∈ handles w'
  | None => False
  end
  ∧ match FileUtils.getFinalFile tmpFilename folder t w with
    | Some (Resolved filedata, w') =>
        (tmpBuildFilename filedata ∉ handles w')
        ∧ ∃ m, count t = Some m
               ∧ ∀ i, 1 ≤ i ≤ m → is_Some (chunks t !! i)
    | Some (Rejected, w') =>
        (filename t = None ∧ w' = w)
        ∨ ∃ name out,
            filename t = Some name
            ∧ FileUtils.getUniqueFilename tmpFilename folder
                (FileUtils.extentionOf name) w = Some out
            ∧ out ∈ handles w'
    | None => False
    end.
Proof.
  split.
  - destruct (getFinalFile_unfold tmpFilename folder t w)
      as (out & r & w' & Hout & _ & Hrun & ->).
    pose proof (appendFileData_stream _ _ _ _ _ _ _ Hrun) as Hstream.
    destruct r as [[]|].
    + destruct Hstream as (Hclosed & m & Hm & _ & Hall). simpl. split.
      * rewrite Hclosed, elem_of_difference, elem_of_singleton. tauto.
      * by exists m.
    + exists out. split; [done|]. rewrite Hstream. apply createWriteStream_open.
  - destruct (filename t) as [name|] eqn:Hname.
    + destruct (FileUtils_getFinalFile_unfold tmpFilename folder t w name Hname)
        as (out & r & w' & Hout & Hrun & ->).
      pose proof (appendFileData_stream _ _ _ _ _ _ _ Hrun) as Hstream.
      destruct r as [[]|].
      * destruct Hstream as (Hclosed & m & Hm & _ & Hall). simpl. split.
        -- rewrite Hclosed, elem_of_difference, elem_of_singleton. tauto.
        -- by exists m.
      * right. exists name, out. split_and!; [done..|].
        rewrite Hstream. apply createWriteStream_open.
    + unfold FileUtils.getFinalFile. rewrite Hname. by left.
Qed.

(** C7 fails on the code: with chunk 1 missing, the read of
    [transmission[1]] is rejected and the output stream, opened before
    the loop, is left open, in [index.js] and in [file-utils.js] alike.
    On the path where every chunk is read, the same loop does end the
    stream. *)
Theorem stream_left_open_after_failed_read :
  (∃ w',
     Index.getFinalFile "tmp-file-2-18" "/tmp/" gappedTransmission gappedWorld
     = Some (Rejected, w')
     ∧ elements (handles w') = ["/tmp/tmp-file-2-18"])
  ∧ (∃ w',
       FileUtils.getFinalFile "tmp-file-2-18" "/tmp/" gappedTransmission
         gappedWorld
       = Some (Rejected, w')
       ∧ elements (handles w') = ["/tmp/tmp-file-2-18.png"])
  ∧ ∃ w',
      Index.getFinalFile "tmp-file-1-18" "/tmp/" photoTransmission photoWorld
      = Some (Resolved (mkFileData (Some "photo.png") "/tmp/tmp-file-1-18"),
              w')
      ∧ elements (handles w') = [].
Proof.
  split; [eexists; by_evaluation|]. split; eexists; by_evaluation.
Qed.

(** The transmission without its chunk 1 is what two arrivals leave
    behind: chunk 3 and then the named chunk 2 make two entries for a
    count of two, the assembler is invoked and fails. *)
Example gapped_upload_reached :
  ∃ st',
    Index.run "/tmp/" None parseEmptyObject
      [chunkCall 1024 "1" (chunkRequest 3 "003" None);
       chunkCall 1024 "2" (chunkRequest 2 "002" (Some "photo.png"))]
      emptyState
    = Some ([Incomplete; Error], st')
    ∧ transmissionOf "ITSA_CL_ID-1" "ITSA-FILETRANS-1" (FILE_TRANSMISSIONS st')
      = Some gappedTransmission
    ∧ elements (handles (world st')) = ["/tmp/tmp-file-2-18"].
Proof. eexists. by_evaluation. Qed.

(** ** The two copies of the helpers *)

(** C8 fails on [file-utils.js]: [base] is free but [base.png] exists,
    the probe looks at [base] only, and the path handed out is the
    existing [base.png]. *)
Theorem getUniqueFilename_returns_existing_path :
  let w := mkWorld {[ "/tmp/tmp-file-1-17.png" := [] ]} ∅ in
  exists_ "/tmp/tmp-file-1-17" w = false
  ∧ FileUtils.getUniqueFilename "tmp-file-1-17" "/tmp/" (Some "png") w
    = Some "/tmp/tmp-file-1-17.png"
  ∧ exists_ "/tmp/tmp-file-1-17.png" w = true.
Proof. by_evaluation. Qed.

(** What the allocator of [file-utils.js] does guarantee: it answers, the
    name it chose before appending the extension is the first free one of
    [base], [base-1], ..., and without an extension that name is the
    answer. *)
Lemma FileUtils_getUniqueFilename_first_free tmpFilename folder extention w :
  ∃ k,
    FileUtils.getUniqueFilename tmpFilename folder extention w
    = Some (suffixed (folder +:+ tmpFilename) k
            +:+ (if truthy extention then "." +:+ default "" extention else ""))
    ∧ files w !! suffixed (folder +:+ tmpFilename) k = None
    ∧ ∀ j, j < k → is_Some (files w !! suffixed (folder +:+ tmpFilename) j).
Proof.
  destruct (getUniqueFilename_first_free tmpFilename folder w)
    as (k & Hk & Hnone & Hall).
  exists k. split_and!; [|done..].
  by rewrite getUniqueFilename_extention, Hk.
Qed.

(** C9, as the code has it.  The two [removeFile] are the same function;
    the two [getUniqueFilename] agree when no extension (or an empty one)
    is passed; the two [getFinalFile] agree on a transmission whose file
    name has no extension (no dot, or nothing after the last dot). *)
Theorem helpers_agree_without_extention tmpFilename folder extention t name
    path w
    (Hextention : truthy extention = false)
    (Hname : filename t = Some name)
    (Hplain : truthy (FileUtils.extentionOf name) = false) :
  FileUtils.removeFile path w = Index.removeFile path w
  ∧ FileUtils.getUniqueFilename tmpFilename folder extention w
    = Index.getUniqueFilename tmpFilename folder w
  ∧ FileUtils.getFinalFile tmpFilename folder t w
    = Index.getFinalFile tmpFilename folder t w.
Proof.
  split_and!.
  - apply removeFile_agree.
  - by apply getUniqueFilename_no_extention.
  - by apply (getFinalFile_agree _ _ _ name).
Qed.

Lemma helpers_agree_without_extention_witness :
  FileUtils.removeFile "/tmp/tmp-file-1-17" photoWorld
  = Index.removeFile "/tmp/tmp-file-1-17" photoWorld
  ∧ FileUtils.getUniqueFilename "tmp-file-1-18" "/tmp/" None photoWorld
    = Index.getUniqueFilename "tmp-file-1-18" "/tmp/" photoWorld
  ∧ FileUtils.getFinalFile "tmp-file-1-18" "/tmp/"
      (mkTransmission 10 (Some 1) (Some "README") (Some ∅)
         {[ 1 := "/tmp/tmp-file-1-17" ]}) photoWorld
    = Index.getFinalFile "tmp-file-1-18" "/tmp/"
        (mkTransmission 10 (Some 1) (Some "README") (Some ∅)
           {[ 1 := "/tmp/tmp-file-1-17" ]}) photoWorld.
Proof.
  apply (helpers_agree_without_extention "tmp-file-1-18" "/tmp/" None
           (mkTransmission 10 (Some 1) (Some "README") (Some ∅)
              {[ 1 := "/tmp/tmp-file-1-17" ]})
           "README" "/tmp/tmp-file-1-17" photoWorld);
    reflexivity.
Defined.

(** C9 fails as stated: for [photo.png] the assembler of [file-utils.js]
    builds [/tmp/tmp-file-1-18.png], the one of [index.js]
    [/tmp/tmp-file-1-18]. *)
Lemma getFinalFile_differs_on_extention :
  FileUtils.getFinalFile "tmp-file-1-18" "/tmp/" photoTransmission photoWorld
  ≠ Index.getFinalFile "tmp-file-1-18" "/tmp/" photoTransmission photoWorld.
Proof. vm_compute. intros [=]. Qed.

Example getFinalFile_names_for_photo :
  fst <$> FileUtils.getFinalFile "tmp-file-1-18" "/tmp/" photoTransmission
            photoWorld
  = Some (Resolved (mkFileData (Some "photo.png") "/tmp/tmp-file-1-18.png"))
  ∧ fst <$> Index.getFinalFile "tmp-file-1-18" "/tmp/" photoTransmission
              photoWorld
    = Some (Resolved (mkFileData (Some "photo.png") "/tmp/tmp-file-1-18")).
Proof. by_evaluation. Qed.

(** ** The quota abort *)

(** C2 fails on the code: under a limit of 15 bytes chunk 1 is stored and
    chunk 2 brings the counted size to 20.  The call answers with the
    quota signal and the transmission and its client are forgotten, but
    the file of chunk 1 stays on disk, and nothing refers to it any
    more. *)
Theorem quota_abort_leaves_chunk_files :
  ∃ st',
    Index.run "/tmp/" None parseEmptyObject oversizedUpload emptyState
    = Some ([Incomplete; QuotaExceeded], st')
    ∧ FILE_TRANSMISSIONS st' = ∅
    ∧ files (world st') !! "/tmp/tmp-file-1-17"
      = Some (replicate 10 "001"%byte).
Proof. eexists. by_evaluation. Qed.

(** C4 fails as stated: the same second arrival is turned away before
    anything is written.  The files after the abort are those before it,
    the one file of chunk 1; no file holds the payload of the aborting
    chunk and no transmission records it. *)
Lemma aborting_chunk_is_not_stored :
  ∃ st1 st2,
    Index.run "/tmp/" None parseEmptyObject (take 1 oversizedUpload) emptyState
    = Some ([Incomplete], st1)
    ∧ Index.recieveFile "/tmp/" None parseEmptyObject (Some 15) None
        "tmp-file-2-17" "tmp-file-2-18"
        (chunkRequest 2 "002" (Some "photo.png")) st1
      = Some (QuotaExceeded, st2)
    ∧ map_to_list (files (world st1))
      = [("/tmp/tmp-file-1-17", replicate 10 "001"%byte)]
    ∧ map_to_list (files (world st2))
      = [("/tmp/tmp-file-1-17", replicate 10 "001"%byte)]
    ∧ FILE_TRANSMISSIONS st2 = ∅.
Proof. eexists _, _. by_evaluation. Qed.

(** ** Cleaning up after the assembly *)

Lemma appendFileData_removes fuel t wstream part w w' :
  Index.appendFileData fuel t wstream part w = Some (Resolved (), w') →
  ∀ path, path ∈ chunkPaths t → files w' !! path = None.
Proof.
  revert part w. induction fuel as [|fuel IH]; intros part w; [done|]. simpl.
  destruct (chunks t !! part ≫= _) as [data|]; [|done].
  case_bool_decide.
  - intros [= <-] path Hpath. by rewrite eachChunk_files, decide_True.
  - apply IH.
Qed.

Section Cleanup.

Variable TMP_DIR : string.
Variable globalMaxFileSize : option N.
Variable JSON_parse : string → option Data.

(** What a completed call does clean up: the transmission is forgotten,
    its client too when this was its only transmission, the built file
    is removed after the callback, and in the world handed to the
    callback none of the paths recorded in the transmission exists. *)
Lemma completed_transmission_forgotten maxFileSize callback chunkName
    buildName req st out original st' :
  Index.recieveFile TMP_DIR globalMaxFileSize JSON_parse maxFileSize callback
    chunkName buildName req st = Some (Complete out original, st') →
  transmissionOf (x_clientid req) (x_transid req) (FILE_TRANSMISSIONS st')
  = None
  ∧ ((∀ transId, transId ≠ x_transid req →
        transmissionOf (x_clientid req) transId (FILE_TRANSMISSIONS st) = None) →
     FILE_TRANSMISSIONS st' !! x_clientid req = None)
  ∧ files (world st') !! out = None
  ∧ ∃ fullFilename w,
      (∀ path,
         path ∈ chunkPaths
                  (Index.recorded JSON_parse fullFilename req
                     (Index.accounted req (FILE_TRANSMISSIONS st))) →
         files w !! path = None)
      ∧ world st'
        = Index.removeFile out
            match callback with
            | Some cb => cb out original w
            | None => w
            end.
Proof.
  intros Hrun.
  pose proof (recieveFile_unfold TMP_DIR globalMaxFileSize JSON_parse
                maxFileSize callback chunkName buildName req st) as H.
  cbn zeta in H. destruct (Index.overQuota _ _ _); [congruence|].
  destruct H as (fullFilename & _ & _ & H).
  destruct (Index.allPartsProcessed _); [|congruence].
  destruct H as (r & w' & Hbuild & H). rewrite H in Hrun. clear H.
  destruct r as [filedata|]; simpl in Hrun; [|congruence].
  injection Hrun as <- <- <-. cbn [FILE_TRANSMISSIONS world].
  split_and!.
  - apply transmissionOf_forget.
  - intros Hothers. rewrite forget_client. cbn zeta.
    rewrite bool_decide_eq_true_2; [done|].
    apply map_eq. intros transId. rewrite lookup_empty.
    destruct (decide (transId = x_transid req)) as [->|Hne].
    + apply lookup_delete_eq.
    + rewrite lookup_delete_ne by done.
      unfold Index.setTransmission. rewrite lookup_insert_eq. simpl.
      rewrite lookup_insert_ne by done.
      specialize (Hothers transId Hne). unfold transmissionOf in Hothers.
      by destruct (FILE_TRANSMISSIONS st !! x_clientid req).
  - rewrite removeFile_files. apply lookup_delete_eq.
  - exists fullFilename, w'. split; [|done].
    destruct (getFinalFile_unfold buildName TMP_DIR
                (Index.recorded JSON_parse fullFilename req
                   (Index.accounted req (FILE_TRANSMISSIONS st)))
                (Index.writeChunk fullFilename (payload req) (world st)))
      as (out' & r & w'' & _ & _ & Happend & Heq).
    rewrite Heq in Hbuild. destruct r as [[]|]; [|congruence].
    injection Hbuild as <- <-.
    by apply (appendFileData_removes _ _ _ _ _ _ Happend).
Qed.

End Cleanup.

(** C5 fails on the code: chunk 1 arrives twice, so its entry is
    overwritten, and the named chunk 2 completes the transmission.  The
    reply is the complete signal, the registry is empty and the built file
    is gone, but the file written for the first copy of chunk 1 is still
    on disk. *)
Theorem resent_chunk_file_survives_assembly :
  ∃ st',
    Index.run "/tmp/" None parseEmptyObject resentUpload emptyState
    = Some ([Incomplete; Incomplete;
             Complete "/tmp/tmp-file-3-18" (Some "photo.png")], st')
    ∧ FILE_TRANSMISSIONS st' = ∅
    ∧ map_to_list (files (world st'))
      = [("/tmp/tmp-file-1-17", replicate 10 "001"%byte)].
Proof. eexists. by_evaluation. Qed.

(** ** The theorems at work on the example uploads *)

(** The ids of the examples are generated ids, and [chunkStored] is the
    state the first chunk leaves behind. *)
Lemma chunkRequest_generatedIds partial b name :
  generatedIds (chunkRequest partial b name).
Proof.
  split.
  - exists "ITSA_CL_ID", 1. vm_compute. reflexivity.
  - exists "ITSA-FILETRANS", 1. vm_compute. reflexivity.
Defined.

Lemma otherClientRequest_generatedIds partial b name :
  generatedIds (otherClientRequest partial b name).
Proof.
  split.
  - exists "ITSA_CL_ID", 2. vm_compute. reflexivity.
  - exists "ITSA-FILETRANS", 1. vm_compute. reflexivity.
Defined.

Lemma chunkStored_reached :
  Index.recieveFile "/tmp/" None parseEmptyObject (Some 15) None
    "tmp-file-1-17" "tmp-file-1-18" (chunkRequest 1 "001" None) emptyState
  = Some (Incomplete, chunkStored).
Proof. vm_compute. reflexivity. Defined.





(** Chunk 2 arrives after chunk 1 under a limit of 15 bytes: the
    hypothesis of C4 holds, the call is aborted and writes nothing. *)
Lemma quota_checked_before_store_witness :
  generatedIds (chunkRequest 2 "002" (Some "photo.png"))
  ∧ ∃ st',
      Index.recieveFile "/tmp/" None parseEmptyObject (Some 15) None
        "tmp-file-2-17" "tmp-file-2-18"
        (chunkRequest 2 "002" (Some "photo.png")) chunkStored
      = Some (QuotaExceeded, st')
      ∧ files (world st') ⊆ files (world chunkStored)
      ∧ transmissionOf "ITSA_CL_ID-1" "ITSA-FILETRANS-1" (FILE_TRANSMISSIONS st')
        = None.
Proof.
  split; [apply chunkRequest_generatedIds|].
  exact (proj2 (quota_checked_before_store "/tmp/" None parseEmptyObject
                  (Some 15) None "tmp-file-2-17" "tmp-file-2-18"
                  (chunkRequest 2 "002" (Some "photo.png")) chunkStored
                  (chunkRequest_generatedIds _ _ _))).
Defined.


(** * Further properties of the code *)

(** ** The configuration of [handleFile] *)

Lemma endsWith_app_char s c : endsWith (s +:+ String c "") c = true.
Proof.
  induction s as [|a s IH].
  - simpl. apply Ascii.eqb_refl.
  - change (String a s +:+ String c "") with (String a (s +:+ String c "")).
    destruct (s +:+ String c "") as [|b s'] eqn:Happ; [|exact IH].
    by destruct s.
Qed.

Lemma endsWith_truthy s c : endsWith s c = true → truthy (Some s) = true.
Proof. by destruct s. Qed.

(** The temp directory [handleFile] works with always ends with a slash,
    whatever [tempdir] and the environment hold, and a directory that went
    through this once comes out unchanged when passed as [tempdir]. *)
Theorem TMP_DIR_ends_with_slash tempdir env_TMP env_TEMP env_TMP' env_TEMP' :
  endsWith (Index.TMP_DIR_of tempdir env_TMP env_TEMP) "/" = true
  ∧ Index.TMP_DIR_of (Some (Index.TMP_DIR_of tempdir env_TMP env_TEMP))
      env_TMP' env_TEMP'
    = Index.TMP_DIR_of tempdir env_TMP env_TEMP.
Proof.
  assert (endsWith (Index.TMP_DIR_of tempdir env_TMP env_TEMP) "/" = true)
    as Hends.
  { unfold Index.TMP_DIR_of. cbn zeta.
    generalize (default "/tmp"
                  (orElse tempdir
                     (orElse env_TMP (orElse env_TEMP (Some "/tmp"))))).
    intros dir. destruct (endsWith dir "/") eqn:Hdir; [done|].
    apply endsWith_app_char. }
  split; [done|].
  generalize dependent (Index.TMP_DIR_of tempdir env_TMP env_TEMP).
  intros dir Hends. unfold Index.TMP_DIR_of. cbn zeta. unfold orElse.
  rewrite (endsWith_truthy _ _ Hends).
  change (default "/tmp" (Some dir)) with dir. by rewrite Hends.
Qed.

(** ** Removing a file *)

(** [removeFile] removes the named file and nothing else, leaves the open
    streams alone, changes nothing when the file does not exist, and doing
    it twice is doing it once. *)
Theorem removeFile_removes_only_that_file filename w :
  files (Index.removeFile filename w) !! filename = None
  ∧ (∀ other, other ≠ filename →
       files (Index.removeFile filename w) !! other = files w !! other)
  ∧ handles (Index.removeFile filename w) = handles w
  ∧ (files w !! filename = None → Index.removeFile filename w = w)
  ∧ Index.removeFile filename (Index.removeFile filename w)
    = Index.removeFile filename w.
Proof.
  assert (∀ w', files w' !! filename = None → Index.removeFile filename w' = w')
    as Hmissing.
  { intros w' Hnone. unfold Index.removeFile.
    by rewrite (proj2 (exists_false filename w') Hnone). }
  assert (files (Index.removeFile filename w) !! filename = None) as Hgone.
  { rewrite removeFile_files. apply lookup_delete_eq. }
  split_and!; [done| |apply removeFile_handles|apply Hmissing|by apply Hmissing].
  intros other Hne. rewrite removeFile_files. by apply lookup_delete_ne.
Qed.

(** ** The allocator of temp names *)

(** A name that was handed out and then written is not handed out again:
    the next allocation, even with the same generated base name, moves on
    to a later probe, which is free in both worlds. *)
Theorem allocation_moves_on tmpFilename folder w path filedata
    (Hfirst : Index.getUniqueFilename tmpFilename folder w = Some path) :
  ∃ k k',
    path = suffixed (folder +:+ tmpFilename) k
    ∧ Index.getUniqueFilename tmpFilename folder
        (Index.writeChunk path filedata w)
      = Some (suffixed (folder +:+ tmpFilename) k')
    ∧ k < k'
    ∧ files w !! suffixed (folder +:+ tmpFilename) k' = None.
Proof.
  destruct (getUniqueFilename_first_free tmpFilename folder w)
    as (k & Hk & Hnone & Hall).
  rewrite Hfirst in Hk. injection Hk as ->.
  destruct (getUniqueFilename_first_free tmpFilename folder
              (Index.writeChunk (suffixed (folder +:+ tmpFilename) k) filedata w))
    as (k' & Hk' & Hnone' & Hall').
  rewrite writeChunk_files in Hnone'.
  assert (k' ≠ k) as Hne.
  { intros ->. by rewrite lookup_insert_eq in Hnone'. }
  rewrite lookup_insert_ne in Hnone'
    by (intros Heq; by apply suffixed_inj in Heq).
  exists k, k'. split_and!; [done..| |done].
  destruct (N.lt_trichotomy k' k) as [Hlt|[Heq|Hgt]]; [|done..].
  destruct (Hall k' Hlt) as [data Hdata]. congruence.
Qed.

Lemma allocation_moves_on_witness :
  ∃ k k',
    "/tmp/tmp-file-1-17" = suffixed ("/tmp/" +:+ "tmp-file-1-17") k
    ∧ Index.getUniqueFilename "tmp-file-1-17" "/tmp/"
        (Index.writeChunk "/tmp/tmp-file-1-17" [] (mkWorld ∅ ∅))
      = Some (suffixed ("/tmp/" +:+ "tmp-file-1-17") k')
    ∧ k < k'
    ∧ files (mkWorld ∅ ∅) !! suffixed ("/tmp/" +:+ "tmp-file-1-17") k' = None.
Proof.
  assert (Index.getUniqueFilename "tmp-file-1-17" "/tmp/" (mkWorld ∅ ∅)
          = Some "/tmp/tmp-file-1-17") as Hfirst by (vm_compute; reflexivity).
  exact (allocation_moves_on "tmp-file-1-17" "/tmp/" (mkWorld ∅ ∅)
           "/tmp/tmp-file-1-17" [] Hfirst).
Defined.

(** ** The extension of the original file name *)

Lemma lastIndexOf_from_spec c s i found :
  (without c s ∧ lastIndexOf_from c s i found = found)
  ∨ ∃ stem ext,
      s = stem +:+ String c ext ∧ without c ext
      ∧ lastIndexOf_from c s i found = (i + Z.of_nat (String.length stem))%Z.
Proof.
  revert i found. induction s as [|a s IH]; intros i found; simpl.
  - by left.
  - destruct (IH (i + 1)%Z (if Ascii.eqb a c then i else found))
      as [[Hwithout ->]|(stem & ext & -> & Hext & ->)].
    + destruct (Ascii.eqb_spec a c) as [->|Hne].
      * right. exists "", s. split_and!; [reflexivity|assumption|]. simpl. lia.
      * by left.
    + right. exists (String a stem), ext.
      split_and!; [reflexivity|assumption|]. simpl. lia.
Qed.

Lemma substr_nat_app stem c ext :
  substr_nat (stem +:+ String c ext) (S (String.length stem)) = ext.
Proof. induction stem as [|a stem IH]; [by destruct ext|exact IH]. Qed.

(** [getFinalFile] of [file-utils.js] takes as extension what follows the
    last dot of the file name: a name without a dot has none, and
    otherwise the name is a stem, a dot and the extension, the extension
    having no dot (it is empty for a name that ends with a dot). *)
Theorem extentionOf_splits_at_last_dot name :
  match FileUtils.extentionOf name with
  | None => without "." name
  | Some ext => ∃ stem, name = stem +:+ "." +:+ ext ∧ without "." ext
  end.
Proof.
  unfold FileUtils.extentionOf, lastIndexOf. cbn zeta.
  destruct (lastIndexOf_from_spec "." name 0 (-1))
    as [[Hwithout ->]|(stem & ext & -> & Hext & ->)].
  - by rewrite bool_decide_eq_false_2 by (intros H; by apply H).
  - rewrite bool_decide_eq_true_2 by lia.
    unfold substr.
    replace (Z.to_nat (0 + Z.of_nat (String.length stem) + 1))
      with (S (String.length stem)) by lia.
    rewrite substr_nat_app. exists stem. split; [reflexivity|assumption].
Qed.

(** The file built by [getFinalFile] of [file-utils.js] is named by the
    first free one of [base], [base-1], ..., followed by a dot and the
    extension of the original file name when that extension is not empty,
    and it is handed out together with the original file name. *)
Theorem built_file_carries_extention tmpFilename folder t w name filedata w'
    (Hname : filename t = Some name)
    (Hbuilt : FileUtils.getFinalFile tmpFilename folder t w
              = Some (Resolved filedata, w')) :
  ∃ k,
    files w !! suffixed (folder +:+ tmpFilename) k = None
    ∧ (∀ j, j < k → is_Some (files w !! suffixed (folder +:+ tmpFilename) j))
    ∧ originalFilename filedata = Some name
    ∧ tmpBuildFilename filedata
      = suffixed (folder +:+ tmpFilename) k
        +:+ match FileUtils.extentionOf name with
            | Some (String a ext) => "." +:+ String a ext
            | _ => ""
            end.
Proof.
  destruct (FileUtils_getFinalFile_unfold tmpFilename folder t w name Hname)
    as (out & r & w'' & Hout & _ & Heq).
  rewrite Heq in Hbuilt. destruct r as [[]|]; [|done].
  injection Hbuilt as <- <-.
  destruct (FileUtils_getUniqueFilename_first_free tmpFilename folder
              (FileUtils.extentionOf name) w) as (k & Hk & Hnone & Hall).
  rewrite Hout in Hk. injection Hk as ->.
  exists k. split_and!; [done..|]. simpl.
  by destruct (FileUtils.extentionOf name) as [[|a ext]|].
Qed.

Lemma built_file_carries_extention_witness :
  ∃ filedata w',
    FileUtils.getFinalFile "tmp-file-1-18" "/tmp/" photoTransmission photoWorld
    = Some (Resolved filedata, w')
    ∧ tmpBuildFilename filedata = "/tmp/tmp-file-1-18.png".
Proof.
  assert (∃ filedata w',
            FileUtils.getFinalFile "tmp-file-1-18" "/tmp/" photoTransmission
              photoWorld = Some (Resolved filedata, w')) as (filedata & w' & Hbuilt).
  { eexists _, _. vm_compute. reflexivity. }
  destruct (built_file_carries_extention "tmp-file-1-18" "/tmp/"
              photoTransmission photoWorld "photo.png" filedata w' eq_refl Hbuilt)
    as (k & Hnone & Hall & _ & Hpath).
  exists filedata, w'. split; [exact Hbuilt|].
  rewrite Hpath. destruct (decide (k = 0)) as [->|Hk]; [reflexivity|].
  destruct (Hall 0) as [data Hdata]; [lia|]. vm_compute in Hdata. discriminate.
Defined.

(** ** When the assembler resolves *)

Lemma chunkData_write t wstream data w i :
  is_Some (files w !! wstream) →
  is_Some (chunkData t (write wstream data w) i) ↔ is_Some (chunkData t w i).
Proof.
  intros Hout. unfold chunkData, readFile.
  destruct (chunks t !! i) as [path|]; simpl; [|done].
  by apply write_keeps_files.
Qed.

(** The loop resolves exactly when the count is known, is not below the
    part it starts with, and every part up to the count can be read. *)
Lemma appendFileData_resolves_iff fuel t wstream part w r w' :
  Index.appendFileData fuel t wstream part w = Some (r, w') →
  is_Some (files w !! wstream) →
  r = Resolved ()
  ↔ ∃ n, count t = Some n ∧ part ≤ n
         ∧ ∀ i, part ≤ i ≤ n → is_Some (chunkData t w i).
Proof.
  revert part w. induction fuel as [|fuel IH]; intros part w; [done|].
  cbn [Index.appendFileData]. fold (chunkData t w part).
  intros Hrun Hout.
  destruct (chunkData t w part) as [data|] eqn:Hpart.
  - case_bool_decide as Hcount.
    + injection Hrun as <- <-. split; [|done]. intros _.
      exists part. split_and!; [done|lia|].
      intros i Hi. replace i with part by lia. rewrite Hpart. by eexists.
    + rewrite (IH _ _ Hrun) by (apply write_keeps_files; done).
      split; intros (n & Hn & Hle & Hall); exists n.
      * split_and!; [done|lia|]. intros i Hi.
        destruct (decide (i = part)) as [->|Hne];
          [rewrite Hpart; by eexists|].
        apply (chunkData_write t wstream data w i Hout). apply Hall. lia.
      * assert (part ≠ n) by congruence.
        split_and!; [done|lia|]. intros i Hi.
        apply (chunkData_write t wstream data w i Hout). apply Hall. lia.
  - injection Hrun as <- <-. split; [done|].
    intros (n & Hn & Hle & Hall). destruct (Hall part) as [data Hdata]; [lia|].
    congruence.
Qed.

(** [getFinalFile] builds the file exactly when [count] is known and at
    least 1 and every chunk from 1 to [count] is recorded under a path
    that can be read (the fresh output itself counts as readable once its
    stream is open).  Otherwise the promise is rejected. *)
Theorem assembler_resolves_iff_all_parts_readable tmpFilename folder t w :
  ∃ out r w',
    Index.getUniqueFilename tmpFilename folder w = Some out
    ∧ Index.getFinalFile tmpFilename folder t w = Some (r, w')
    ∧ (r = Resolved (mkFileData (filename t) out) ∨ r = Rejected)
    ∧ (r ≠ Rejected
       ↔ ∃ n, count t = Some n ∧ 1 ≤ n
              ∧ ∀ i, 1 ≤ i ≤ n →
                     ∃ path, chunks t !! i = Some path
                             ∧ (path = out ∨ is_Some (files w !! path))).
Proof.
  destruct (getFinalFile_unfold tmpFilename folder t w)
    as (out & r & w' & Hout & Hfresh & Hrun & Heq).
  exists out. eexists _, w'. split; [done|]. split; [exact Heq|].
  pose proof (appendFileData_resolves_iff _ _ _ _ _ _ _ Hrun) as Hiff.
  assert (is_Some (files (createWriteStream out w) !! out)) as Hopen.
  { simpl. rewrite lookup_insert_eq. by eexists. }
  specialize (Hiff Hopen).
  assert (∀ i, is_Some (chunkData t (createWriteStream out w) i)
               ↔ ∃ path, chunks t !! i = Some path
                         ∧ (path = out ∨ is_Some (files w !! path)))
    as Hreadable.
  { intros i. unfold chunkData, readFile.
    destruct (chunks t !! i) as [path|]; simpl.
    - destruct (decide (path = out)) as [->|Hne].
      + rewrite lookup_insert_eq. split; [|by eexists].
        intros _. exists out. split; [done|by left].
      + rewrite lookup_insert_ne by done. split.
        * intros Hex. exists path. split; [done|by right].
        * by intros (? & [= <-] & [?|?]).
    - split; [by intros [? ?]|by intros (? & ? & _)]. }
  split.
  - destruct r as [[]|]; [by left|by right].
  - transitivity (r = Resolved ()).
    + destruct r as [[]|]; split; intros; congruence.
    + rewrite Hiff. split; intros (n & Hn & Hle & Hall); exists n;
        (split_and!; [done..|]); intros i Hi; apply Hreadable; by apply Hall.
Qed.

(** The loop from [part] on, when the next [len] chunks can be read and
    the one after them cannot: it is rejected, and the output holds what
    it held plus the chunks read. *)
Lemma appendFileData_gap fuel t wstream part w len ds acc r w' :
  Index.appendFileData fuel t wstream part w = Some (r, w') →
  wstream ∈ handles w →
  files w !! wstream = Some acc →
  Forall2 (λ i d, ∃ path, chunks t !! i = Some path ∧ path ≠ wstream
                          ∧ files w !! path = Some d)
    (partsFrom part len) ds →
  (∀ path, chunks t !! (part + N.of_nat len) = Some path →
           path ≠ wstream ∧ files w !! path = None) →
  (∀ i, i ∈ partsFrom part len → count t ≠ Some i) →
  r = Rejected
  ∧ files w' !! wstream = Some (acc ++ concat ds)
  ∧ ∀ path, path ≠ wstream → files w' !! path = files w !! path.
Proof.
  revert part w len ds acc.
  induction fuel as [|fuel IH]; intros part w len ds acc; [done|].
  cbn [Index.appendFileData].
  intros Hrun Hopen Hacc Hread Hgap Hcount.
  destruct len as [|len].
  - rewrite N.add_0_r in Hgap.
    assert (chunks t !! part ≫= (λ path, readFile path w) = None) as Hnone.
    { destruct (chunks t !! part) as [path|]; [|done].
      by destruct (Hgap path eq_refl). }
    rewrite Hnone in Hrun. injection Hrun as <- <-.
    apply Forall2_nil_inv_l in Hread as ->.
    simpl. by rewrite app_nil_r.
  - cbn [partsFrom] in Hread, Hcount.
    apply Forall2_cons_inv_l in Hread
      as (d & ds' & (path & Hpath & Hne & Hd) & Hread & ->).
    rewrite Hpath in Hrun. cbn [mbind option_bind] in Hrun.
    unfold readFile in Hrun. rewrite Hd in Hrun.
    rewrite bool_decide_eq_false_2 in Hrun.
    2:{ apply Hcount, elem_of_cons. by left. }
    destruct (IH _ _ len ds' (acc ++ d) Hrun) as (-> & Hout & Hrest).
    + by rewrite write_handles.
    + by rewrite write_files_eq, Hacc.
    + eapply Forall2_impl; [exact Hread|].
      intros i d' (p & Hp & Hpne & Hpd). exists p.
      split_and!; [done..|]. by rewrite write_files_ne.
    + intros p Hp. replace (part + 1 + N.of_nat len)
        with (part + N.of_nat (S len)) in Hp by lia.
      destruct (Hgap p Hp) as [Hpne Hpd].
      split; [done|]. by rewrite write_files_ne.
    + intros i Hi. apply Hcount, elem_of_cons. by right.
    + split_and!; [done| |].
      * rewrite Hout. cbn [concat]. by rewrite (assoc_L (++)).
      * intros p Hp. rewrite Hrest by done. by apply write_files_ne.
Qed.

(** When the assembler cannot read a chunk, it removes nothing.  Chunks
    1 to [k] are stored, chunk [k+1] is not recorded or its file is
    missing, and the count is none of 1..[k], so the loop gets as far as
    chunk [k+1]: [getFinalFile] is rejected, every file but the output is
    as it was, all chunk files included, and the output, new, holds the
    bytes of the chunks 1 to [k]. *)
Theorem rejected_assembly_keeps_files tmpFilename folder t w (k : nat) ds
    (Hread : Forall2 (λ i d, chunkData t w i = Some d) (indices k) ds)
    (Hgap : ∀ path,
        chunks t !! (1 + N.of_nat k) = Some path →
        files w !! path = None
        ∧ Index.getUniqueFilename tmpFilename folder w ≠ Some path)
    (Hcount : ∀ i, i ∈ indices k → count t ≠ Some i) :
  ∃ out w',
    Index.getUniqueFilename tmpFilename folder w = Some out
    ∧ files w !! out = None
    ∧ Index.getFinalFile tmpFilename folder t w = Some (Rejected, w')
    ∧ files w' !! out = Some (concat ds)
    ∧ ∀ path, path ≠ out → files w' !! path = files w !! path.
Proof.
  destruct (getFinalFile_unfold tmpFilename folder t w)
    as (out & r & w' & Hout & Hfresh & Hrun & Heq).
  destruct (appendFileData_gap _ _ _ _ _ k ds [] _ _ Hrun)
    as (-> & Hbuilt & Hrest).
  - apply createWriteStream_open.
  - simpl. by rewrite lookup_insert_eq.
  - eapply Forall2_impl; [exact Hread|]. intros i d Hd. cbn beta.
    unfold chunkData, readFile in Hd.
    destruct (chunks t !! i) as [path|]; [|done]. simpl in Hd.
    assert (path ≠ out) as Hne by (intros ->; congruence).
    exists path. split_and!; [done..|].
    by rewrite createWriteStream_files_ne.
  - intros path Hpath. destruct (Hgap path Hpath) as [Hnone Hother].
    assert (path ≠ out) as Hne by (intros ->; congruence).
    split; [done|]. by rewrite createWriteStream_files_ne.
  - exact Hcount.
  - exists out, w'. split_and!; [done..|].
    intros path Hne. rewrite Hrest by done.
    by apply createWriteStream_files_ne.
Qed.

(** Chunk 1 stored, chunk 2 missing, for a count of 3. *)
Lemma rejected_assembly_keeps_files_witness :
  let t := mkTransmission 20 (Some 3) (Some "photo.png") (Some ∅)
             {[ 1 := "/tmp/tmp-file-1-17"; 3 := "/tmp/tmp-file-2-17" ]} in
  ∃ out w',
    Index.getFinalFile "tmp-file-2-18" "/tmp/" t gappedWorld
    = Some (Rejected, w')
    ∧ files w' !! out = Some (replicate 10 "003"%byte)
    ∧ files w' !! "/tmp/tmp-file-1-17" = files gappedWorld !! "/tmp/tmp-file-1-17"
    ∧ files w' !! "/tmp/tmp-file-2-17" = files gappedWorld !! "/tmp/tmp-file-2-17".
Proof.
  intros t.
  destruct (rejected_assembly_keeps_files "tmp-file-2-18" "/tmp/" t
              gappedWorld 1 [replicate 10 "003"%byte])
    as (out & w' & Hout & _ & Hrun & Hbuilt & Hrest).
  - repeat constructor.
  - intros path Hpath. vm_compute in Hpath. discriminate.
  - intros i Hi%elem_of_indices. assert (i = 1) as -> by lia. discriminate.
  - exists out, w'. split; [exact Hrun|]. split; [exact Hbuilt|].
    split; apply Hrest; intros <-; vm_compute in Hout; discriminate.
Defined.

(** ** More on one chunk arrival *)

Section Calls.

Variable TMP_DIR : string.
Variable globalMaxFileSize : option N.
Variable JSON_parse : string → option Data.

Local Abbreviation recieveFile :=
  (Index.recieveFile TMP_DIR globalMaxFileSize JSON_parse).
Local Abbreviation recorded := (Index.recorded JSON_parse).
Local Abbreviation effectiveMax := (Index.effectiveMax globalMaxFileSize).

(** The reply of a call is one of four cases, each with its state. *)
Lemma recieveFile_cases maxFileSize callback chunkName buildName req st :
  let t := Index.accounted req (FILE_TRANSMISSIONS st) in
  ∃ reply st',
    recieveFile maxFileSize callback chunkName buildName req st
      = Some (reply, st')
    ∧ ((Index.overQuota (effectiveMax maxFileSize) req t = true
        ∧ reply = QuotaExceeded
        ∧ st' = mkState (Index.forget req
                           (Index.setTransmission req t (FILE_TRANSMISSIONS st)))
                  (world st))
       ∨ (Index.overQuota (effectiveMax maxFileSize) req t = false
          ∧ ∃ fullFilename,
              files (world st) !! fullFilename = None
              ∧ let w := Index.writeChunk fullFilename (payload req) (world st) in
                let t' := recorded fullFilename req t in
                let FT := Index.setTransmission req t' (FILE_TRANSMISSIONS st) in
                (Index.allPartsProcessed t' = false
                 ∧ reply = Incomplete ∧ st' = mkState FT w)
                ∨ (Index.allPartsProcessed t' = true
                   ∧ ∃ w', Index.getFinalFile buildName TMP_DIR t' w
                           = Some (Rejected, w')
                           ∧ reply = Error ∧ st' = mkState FT w')
                ∨ (Index.allPartsProcessed t' = true
                   ∧ ∃ filedata w',
                       Index.getFinalFile buildName TMP_DIR t' w
                       = Some (Resolved filedata, w')
                       ∧ reply = Complete (tmpBuildFilename filedata)
                                   (originalFilename filedata)
                       ∧ st' = mkState (Index.forget req FT)
                                 (Index.removeFile (tmpBuildFilename filedata)
                                    match callback with
                                    | Some cb =>
                                        cb (tmpBuildFilename filedata)
                                          (originalFilename filedata) w'
                                    | None => w'
                                    end)))).
Proof.
  intros t.
  pose proof (recieveFile_unfold TMP_DIR globalMaxFileSize JSON_parse
                maxFileSize callback chunkName buildName req st) as H.
  cbn zeta in H. fold t in H.
  destruct (Index.overQuota _ req t).
  - eexists _, _. split; [exact H|]. left. done.
  - destruct H as (fullFilename & _ & Hfresh & H).
    destruct (Index.allPartsProcessed _) eqn:Hall.
    + destruct H as (r & w' & Hbuild & H). destruct r as [filedata|].
      * eexists _, _. split; [exact H|]. right. split; [done|].
        exists fullFilename. split; [done|]. cbn zeta. rewrite Hall.
        right. right. split; [done|]. by exists filedata, w'.
      * eexists _, _. split; [exact H|]. right. split; [done|].
        exists fullFilename. split; [done|]. cbn zeta. rewrite Hall.
        right. left. split; [done|]. by exists w'.
    + eexists _, _. split; [exact H|]. right. split; [done|].
      exists fullFilename. split; [done|]. cbn zeta. rewrite Hall. by left.
Qed.

(** For generated ids: the quota signal is the reply exactly when the
    declared total size, or the bytes counted so far plus this payload,
    are above the limit in force; a chunk that brings the count exactly
    to the limit passes. *)
Theorem quota_signal_iff_above_limit maxFileSize callback chunkName buildName
    req st
    (Hids : generatedIds req) :
  ∃ reply st',
    recieveFile maxFileSize callback chunkName buildName req st
      = Some (reply, st')
    ∧ (reply = QuotaExceeded
       ↔ (∃ total, x_total_size req = Some total
                   ∧ effectiveMax maxFileSize < total)
         ∨ effectiveMax maxFileSize
           < sizeOf (transmissionOf (x_clientid req) (x_transid req)
                       (FILE_TRANSMISSIONS st))
             + N.of_nat (length (payload req))).
Proof.
  destruct (recieveFile_cases maxFileSize callback chunkName buildName req st)
    as (reply & st' & Hrun & Hcases).
  exists reply, st'. split; [done|].
  destruct (accounted_fields req (FILE_TRANSMISSIONS st)) as (Hsize & _).
  rewrite <- Hsize.
  assert (Index.overQuota (effectiveMax maxFileSize) req
            (Index.accounted req (FILE_TRANSMISSIONS st)) = true
          ↔ (∃ total, x_total_size req = Some total
                      ∧ effectiveMax maxFileSize < total)
            ∨ effectiveMax maxFileSize
              < cummulatedSize (Index.accounted req (FILE_TRANSMISSIONS st)))
    as Hover.
  { unfold Index.overQuota. rewrite orb_true_iff, N.ltb_lt.
    destruct (x_total_size req) as [total|].
    - rewrite N.ltb_lt. split.
      + intros [?|?]; [left; by exists total|by right].
      + intros [(? & [= <-] & ?)|?]; [by left|by right].
    - split.
      + intros [?|?]; [done|by right].
      + intros [(? & [=] & _)|?]. by right. }
  rewrite <- Hover.
  destruct Hcases as [(-> & -> & _)|(-> & f & _ & Hrest)]; [done|].
  cbn zeta in Hrest. split; [|done]. intros ->.
  destruct Hrest as [(_ & ? & _)|[(_ & ? & _ & ? & _)|(_ & ? & ? & _ & ? & _)]];
    done.
Qed.

(** The limit in force is never zero, and a call that passes 0 as its
    limit behaves in every respect like a call that passes none: 0 does
    not turn uploads off, it means the module-wide or default limit. *)
Theorem zero_limit_is_no_limit_of_its_own maxFileSize callback chunkName
    buildName req st :
  effectiveMax maxFileSize ≠ 0
  ∧ recieveFile (Some 0) callback chunkName buildName req st
    = recieveFile None callback chunkName buildName req st.
Proof.
  split; [|done]. unfold Index.effectiveMax.
  destruct maxFileSize as [[|m]|], globalMaxFileSize as [[|g]|]; done.
Qed.

Lemma recieveFile_other_entry maxFileSize callback chunkName buildName req st
    reply st' clientId transId :
  recieveFile maxFileSize callback chunkName buildName req st
    = Some (reply, st') →
  (clientId, transId) ≠ (x_clientid req, x_transid req) →
  transmissionOf clientId transId (FILE_TRANSMISSIONS st')
  = transmissionOf clientId transId (FILE_TRANSMISSIONS st).
Proof.
  intros Hrun Hother.
  destruct (recieveFile_cases maxFileSize callback chunkName buildName req st)
    as (reply' & st'' & Hrun' & Hcases).
  rewrite Hrun in Hrun'. injection Hrun' as <- <-.
  destruct Hcases as [(_ & _ & ->)|(_ & f & _ & Hrest)].
  - cbn [FILE_TRANSMISSIONS].
    by rewrite transmissionOf_forget_ne, transmissionOf_setTransmission_ne.
  - cbn zeta in Hrest.
    destruct Hrest as [(_ & _ & ->)|[(_ & w' & _ & _ & ->)
                                    |(_ & fd & w' & _ & _ & ->)]];
      cbn [FILE_TRANSMISSIONS];
      rewrite ?transmissionOf_forget_ne by done;
      by rewrite transmissionOf_setTransmission_ne.
Qed.

(** A call with generated ids never touches the registry entry of
    another transmission, whatever its reply. *)
Theorem other_transmissions_untouched maxFileSize callback chunkName
    buildName req st reply st' clientId transId
    (Hids : generatedIds req)
    (Hrun : recieveFile maxFileSize callback chunkName buildName req st
            = Some (reply, st'))
    (Hother : (clientId, transId) ≠ (x_clientid req, x_transid req)) :
  transmissionOf clientId transId (FILE_TRANSMISSIONS st')
  = transmissionOf clientId transId (FILE_TRANSMISSIONS st).
Proof. by eapply recieveFile_other_entry. Qed.

(** For generated ids: the registry entry of a transmission is removed
    by exactly two replies, the quota signal and the complete signal;
    after both nothing of it is remembered, so that the next chunk with
    the same ids starts a new transmission, counted from its own length,
    with no count, no file name and no chunk entry.  After the other
    replies the entry is there. *)
Theorem entry_removed_iff_aborted_or_completed maxFileSize callback chunkName
    buildName req st reply st' next
    (Hids : generatedIds req)
    (Hrun : recieveFile maxFileSize callback chunkName buildName req st
            = Some (reply, st'))
    (Hclient : x_clientid next = x_clientid req)
    (Htrans : x_transid next = x_transid req) :
  (transmissionOf (x_clientid req) (x_transid req) (FILE_TRANSMISSIONS st')
   = None
   ↔ reply = QuotaExceeded ∨ ∃ out original, reply = Complete out original)
  ∧ (reply = QuotaExceeded ∨ (∃ out original, reply = Complete out original) →
     Index.accounted next (FILE_TRANSMISSIONS st')
     = mkTransmission (N.of_nat (length (payload next))) None None None ∅).
Proof.
  destruct (recieveFile_cases maxFileSize callback chunkName buildName req st)
    as (reply' & st'' & Hrun' & Hcases).
  rewrite Hrun in Hrun'. injection Hrun' as <- <-.
  assert (transmissionOf (x_clientid req) (x_transid req)
            (FILE_TRANSMISSIONS st') = None
          ↔ reply = QuotaExceeded ∨ ∃ out original, reply = Complete out original)
    as Hiff.
  { destruct Hcases as [(_ & -> & ->)|(_ & f & _ & Hrest)].
    - cbn [FILE_TRANSMISSIONS]. rewrite transmissionOf_forget.
      split; [by left|done].
    - cbn zeta in Hrest.
      destruct Hrest as [(_ & -> & ->)|[(_ & w' & _ & -> & ->)
                                       |(_ & fd & w' & _ & -> & ->)]];
        cbn [FILE_TRANSMISSIONS];
        rewrite ?transmissionOf_forget, ?transmissionOf_setTransmission.
      + split; [done|]. by intros [?|(? & ? & ?)].
      + split; [done|]. by intros [?|(? & ? & ?)].
      + split; [|done]. intros _. right. by eexists _, _. }
  split; [done|]. intros Hended%Hiff.
  by rewrite accounted_spec, Hclient, Htrans, Hended.
Qed.

(** A chunk answered with the incomplete signal adds exactly one file, at
    a path that was free, holding exactly the payload; no other file is
    written or removed, and no stream is left open. *)
Theorem incomplete_call_adds_one_file maxFileSize callback chunkName
    buildName req st st'
    (Hrun : recieveFile maxFileSize callback chunkName buildName req st
            = Some (Incomplete, st')) :
  ∃ fullFilename,
    files (world st) !! fullFilename = None
    ∧ files (world st') = <[fullFilename := payload req]> (files (world st))
    ∧ handles (world st') ⊆ handles (world st)
    ∧ recordedAt (FILE_TRANSMISSIONS st') (x_clientid req) (x_transid req)
        (x_partial req) fullFilename.
Proof.
  destruct (recieveFile_cases maxFileSize callback chunkName buildName req st)
    as (reply' & st'' & Hrun' & Hcases).
  rewrite Hrun in Hrun'. injection Hrun' as <- <-.
  destruct Hcases as [(_ & ? & _)|(_ & f & Hfresh & Hrest)]; [done|].
  cbn zeta in Hrest.
  destruct Hrest as [(_ & _ & ->)|[(_ & ? & _ & ? & _)|(_ & ? & ? & _ & ? & _)]];
    [|done..].
  exists f. cbn [world FILE_TRANSMISSIONS]. split_and!; [done| | |].
  - apply writeChunk_files.
  - rewrite writeChunk_handles. intros path.
    rewrite elem_of_difference, elem_of_union, elem_of_singleton. tauto.
  - eexists. split; [apply transmissionOf_setTransmission|].
    rewrite recorded_chunks. apply lookup_insert_eq.
Qed.

(** Without a callback, a call leaves a stream open only when the
    assembly was rejected: after every other reply the open streams are
    among those that were open before. *)
Theorem no_stream_left_open_unless_rejected maxFileSize chunkName buildName
    req st reply st'
    (Hrun : recieveFile maxFileSize None chunkName buildName req st
            = Some (reply, st'))
    (Hreply : reply ≠ Error) :
  handles (world st') ⊆ handles (world st).
Proof.
  destruct (recieveFile_cases maxFileSize None chunkName buildName req st)
    as (reply' & st'' & Hrun' & Hcases).
  rewrite Hrun in Hrun'. injection Hrun' as <- <-.
  destruct Hcases as [(_ & _ & ->)|(_ & f & _ & Hrest)]; [done|].
  cbn zeta in Hrest.
  destruct Hrest as [(_ & _ & ->)|[(_ & ? & _ & ? & _)
                                  |(_ & fd & w' & Hbuild & _ & ->)]];
    [|done|]; cbn [world].
  - rewrite writeChunk_handles. intros path.
    rewrite elem_of_difference, elem_of_union, elem_of_singleton. tauto.
  - rewrite removeFile_handles.
    destruct (getFinalFile_unfold buildName TMP_DIR
                (recorded f req (Index.accounted req (FILE_TRANSMISSIONS st)))
                (Index.writeChunk f (payload req) (world st)))
      as (out & r & w'' & _ & _ & Happend & Heq).
    rewrite Heq in Hbuild. destruct r as [[]|]; [|done].
    injection Hbuild as _ <-.
    destruct (appendFileData_stream _ _ _ _ _ _ _ Happend) as [-> _].
    unfold createWriteStream. cbn [handles].
    rewrite writeChunk_handles. intros path.
    intros [[Hout|[[Hf|Hopen]%elem_of_union Hnf]%elem_of_difference]
              %elem_of_union Hno]%elem_of_difference; done.
Qed.

(** For generated ids: what stays in the registry after a call that was
    not aborted has counted no more bytes than the limit in force for
    that call. *)
Theorem stored_size_within_limit maxFileSize callback chunkName buildName
    req st reply st' t
    (Hids : generatedIds req)
    (Hrun : recieveFile maxFileSize callback chunkName buildName req st
            = Some (reply, st'))
    (Hstored : transmissionOf (x_clientid req) (x_transid req)
                 (FILE_TRANSMISSIONS st') = Some t) :
  cummulatedSize t ≤ effectiveMax maxFileSize
  ∧ ∀ total, x_total_size req = Some total → total ≤ effectiveMax maxFileSize.
Proof.
  destruct (recieveFile_cases maxFileSize callback chunkName buildName req st)
    as (reply' & st'' & Hrun' & Hcases).
  rewrite Hrun in Hrun'. injection Hrun' as <- <-.
  destruct Hcases as [(_ & _ & ->)|(Hquota & f & _ & Hrest)].
  - cbn [FILE_TRANSMISSIONS] in Hstored.
    by rewrite transmissionOf_forget in Hstored.
  - apply overQuota_false in Hquota as [Hdeclared Hsize].
    cbn zeta in Hrest.
    destruct Hrest as [(_ & _ & ->)|[(_ & w' & _ & _ & ->)
                                    |(_ & fd & w' & _ & _ & ->)]];
      cbn [FILE_TRANSMISSIONS] in Hstored.
    + rewrite transmissionOf_setTransmission in Hstored.
      injection Hstored as <-. by rewrite recorded_cummulatedSize.
    + rewrite transmissionOf_setTransmission in Hstored.
      injection Hstored as <-. by rewrite recorded_cummulatedSize.
    + by rewrite transmissionOf_forget in Hstored.
Qed.


(** An empty [x-filename] is no file name: the chunk is handled exactly
    like one without the header, and so does not end the upload. *)
Theorem empty_filename_is_no_filename maxFileSize callback chunkName buildName
    req st
    (Hempty : x_filename req = Some "") :
  recieveFile maxFileSize callback chunkName buildName req st
  = recieveFile maxFileSize callback chunkName buildName
      (mkRequest (payload req) None (x_transid req) (x_clientid req)
         (x_partial req) (x_total_size req) (x_data req)) st.
Proof.
  unfold Index.recieveFile, Index.storeAndBuild.
  destruct (Index.overQuota _ _ _); [done|].
  destruct (Index.getUniqueFilename chunkName TMP_DIR (world st))
    as [fullFilename|]; [|done].
  cbn [mbind option_bind].
  assert (∀ t, recorded fullFilename req t
               = recorded fullFilename
                   (mkRequest (payload req) None (x_transid req)
                      (x_clientid req) (x_partial req) (x_total_size req)
                      (x_data req)) t) as Hsame.
  { intros t. unfold Index.recorded. by rewrite Hempty. }
  by rewrite Hsame.
Qed.

(** The complete signal is given only for a transmission whose chunk
    entries, this chunk included, are exactly the indices 1..n, n being
    the index of the chunk that carried the file name; the signal carries
    that file name.  An upload with an index outside 1..n, or with one
    missing, never completes. *)
Theorem complete_only_with_indices_one_to_count maxFileSize callback chunkName
    buildName req st out original st'
    (Hwf : wellFormed (FILE_TRANSMISSIONS st))
    (Hrun : recieveFile maxFileSize callback chunkName buildName req st
            = Some (Complete out original, st')) :
  ∃ fullFilename n name,
    let t := recorded fullFilename req
               (Index.accounted req (FILE_TRANSMISSIONS st)) in
    count t = Some (N.of_nat n) ∧ (1 ≤ n)%nat
    ∧ dom (chunks t) = list_to_set (indices n)
    ∧ filename t = Some name
    ∧ original = Some name.
Proof.
  destruct (recieveFile_cases maxFileSize callback chunkName buildName req st)
    as (reply' & st'' & Hrun' & Hcases).
  rewrite Hrun in Hrun'. injection Hrun' as <- <-.
  destruct Hcases as [(_ & ? & _)|(_ & f & _ & Hrest)]; [done|].
  cbn zeta in Hrest.
  destruct Hrest as [(_ & ? & _)|[(_ & ? & _ & ? & _)
                                 |(Hall & fd & w' & Hbuild & Hreply & _)]];
    [done..|].
  set (t := recorded f req (Index.accounted req (FILE_TRANSMISSIONS st))) in *.
  assert (terminalTogether t) as Htogether.
  { by apply recorded_terminalTogether, accounted_terminalTogether. }
  apply allPartsProcessed_complete in Hall as (m & Hm & Hsize); [|done|].
  2:{ unfold t. rewrite recorded_chunks. apply insert_non_empty. }
  destruct (getFinalFile_unfold buildName TMP_DIR t
              (Index.writeChunk f (payload req) (world st)))
    as (out' & r & w'' & _ & _ & Happend & Heq).
  rewrite Heq in Hbuild. destruct r as [[]|]; [|done].
  injection Hbuild as <- <-. injection Hreply as -> ->.
  destruct (appendFileData_stream _ _ _ _ _ _ _ Happend)
    as (_ & m' & Hm' & Hle & Hkeys).
  rewrite Hm in Hm'. injection Hm' as <-.
  unfold terminalTogether in Htogether. rewrite Hm in Htogether.
  destruct (filename t) as [name|] eqn:Hname; [|done].
  exists f, (size (chunks t)), name. cbn zeta. fold t.
  rewrite Hsize. split_and!; [done|lia| |done..].
  symmetry. apply set_subseteq_size_eq.
  - intros i Hi%elem_of_list_to_set%elem_of_indices.
    apply elem_of_dom, Hkeys. lia.
  - rewrite size_dom, size_list_to_set by apply NoDup_partsFrom.
    unfold indices. by rewrite length_partsFrom.
Qed.

End Calls.

(** ** Invariants of the registry *)

Section Invariants.

Variable TMP_DIR : string.
Variable globalMaxFileSize : option N.
Variable JSON_parse : string → option Data.

Local Abbreviation recieveFile :=
  (Index.recieveFile TMP_DIR globalMaxFileSize JSON_parse).
Local Abbreviation run := (Index.run TMP_DIR globalMaxFileSize JSON_parse).
Local Abbreviation recorded := (Index.recorded JSON_parse).

(** An invariant of single calls is an invariant of sequences of calls. *)
Lemma run_invariant (P : State → Prop) (Q : Index.Call → Prop) :
  (∀ call st reply st',
     Q call → P st →
     recieveFile (Index.call_max call) (Index.call_callback call)
       (Index.call_chunkName call) (Index.call_buildName call)
       (Index.call_request call) st = Some (reply, st') →
     P st') →
  ∀ calls st replies st',
    Forall Q calls → P st → run calls st = Some (replies, st') → P st'.
Proof.
  intros Hstep calls. induction calls as [|call calls IH];
    intros st replies st' Hcalls HP Hrun.
  - by injection Hrun as <- <-.
  - apply Forall_cons in Hcalls as [Hcall Hcalls].
    cbn [Index.run] in Hrun.
    destruct (recieveFile _ _ _ _ _ st) as [[reply st1]|] eqn:Hone; [|done].
    cbn [mbind option_bind] in Hrun.
    destruct (run calls st1) as [[rs st2]|] eqn:Hrest; [|done].
    injection Hrun as <- <-.
    eapply IH; [done| |exact Hrest]. by eapply Hstep.
Qed.

Lemma noEmptyClient_setTransmission req t FT :
  noEmptyClient FT → noEmptyClient (Index.setTransmission req t FT).
Proof.
  intros Hinv clientId client. unfold Index.setTransmission.
  destruct (decide (clientId = x_clientid req)) as [->|Hne].
  - rewrite lookup_insert_eq. intros [= <-]. apply insert_non_empty.
  - rewrite lookup_insert_ne by done. apply Hinv.
Qed.

Lemma noEmptyClient_forget req FT :
  noEmptyClient FT → noEmptyClient (Index.forget req FT).
Proof.
  intros Hinv clientId client. unfold Index.forget.
  case_bool_decide as Hsize.
  - destruct (decide (clientId = x_clientid req)) as [->|Hne].
    + by rewrite lookup_delete_eq.
    + rewrite lookup_delete_ne by done. apply Hinv.
  - destruct (decide (clientId = x_clientid req)) as [->|Hne].
    + rewrite lookup_insert_eq. intros [= <-] Hempty.
      apply Hsize. by rewrite Hempty, map_size_empty.
    + rewrite lookup_insert_ne by done. apply Hinv.
Qed.

(** With generated ids the registry never keeps a client entry without a
    transmission: whatever calls arrive, aborted, completed or in
    progress, every client in the registry has at least one
    transmission. *)
Theorem no_client_entry_left_empty calls st replies st'
    (Hids : Forall (λ call, generatedIds (Index.call_request call)) calls)
    (Hinit : noEmptyClient (FILE_TRANSMISSIONS st))
    (Hrun : run calls st = Some (replies, st')) :
  noEmptyClient (FILE_TRANSMISSIONS st').
Proof.
  apply (run_invariant (λ st, noEmptyClient (FILE_TRANSMISSIONS st))
           (λ call, generatedIds (Index.call_request call)))
    with calls st replies; [|done..].
  clear. intros call st reply st' _ Hinv Hone.
  destruct (recieveFile_cases TMP_DIR globalMaxFileSize JSON_parse
              (Index.call_max call) (Index.call_callback call)
              (Index.call_chunkName call) (Index.call_buildName call)
              (Index.call_request call) st) as (reply' & st'' & Hone' & Hcases).
  rewrite Hone in Hone'. injection Hone' as <- <-.
  destruct Hcases as [(_ & _ & ->)|(_ & f & _ & Hrest)].
  - by apply noEmptyClient_forget, noEmptyClient_setTransmission.
  - cbn zeta in Hrest.
    destruct Hrest as [(_ & _ & ->)|[(_ & w' & _ & _ & ->)
                                    |(_ & fd & w' & _ & _ & ->)]];
      cbn [FILE_TRANSMISSIONS];
      try apply noEmptyClient_forget; by apply noEmptyClient_setTransmission.
Qed.

(** *** Every recorded chunk has a file of its own *)

Lemma recordedAt_setTransmission req t FT clientId transId i path :
  recordedAt (Index.setTransmission req t FT) clientId transId i path
  ↔ ((clientId, transId) = (x_clientid req, x_transid req)
     ∧ chunks t !! i = Some path)
    ∨ ((clientId, transId) ≠ (x_clientid req, x_transid req)
       ∧ recordedAt FT clientId transId i path).
Proof.
  unfold recordedAt.
  destruct (decide ((clientId, transId) = (x_clientid req, x_transid req)))
    as [[= -> ->]|Hne].
  - rewrite transmissionOf_setTransmission. split.
    + intros (t' & [= <-] & Hpath). by left.
    + intros [[_ Hpath]|[Hne _]]; [by exists t|done].
  - rewrite transmissionOf_setTransmission_ne by done. split.
    + intros H. by right.
    + by intros [[? _]|[_ H]].
Qed.

Lemma recordedAt_forget req FT clientId transId i path :
  recordedAt (Index.forget req FT) clientId transId i path
  ↔ (clientId, transId) ≠ (x_clientid req, x_transid req)
    ∧ recordedAt FT clientId transId i path.
Proof.
  unfold recordedAt.
  destruct (decide ((clientId, transId) = (x_clientid req, x_transid req)))
    as [[= -> ->]|Hne].
  - rewrite transmissionOf_forget. split.
    + by intros (t' & [=] & _).
    + by intros [? _].
  - rewrite transmissionOf_forget_ne by done. split; [by split|by intros [_ ?]].
Qed.

Lemma recordedAt_accounted req FT i path :
  chunks (Index.accounted req FT) !! i = Some path
  ↔ recordedAt FT (x_clientid req) (x_transid req) i path.
Proof.
  destruct (accounted_fields req FT) as (_ & -> & _). unfold recordedAt.
  destruct (transmissionOf _ _ FT) as [t|].
  - rewrite chunksOf_Some. split; [by exists t|by intros (? & [= <-] & ?)].
  - change (chunksOf None) with (∅ : gmap N string).
    rewrite lookup_empty. split; [done|by intros (? & [=] & _)].
Qed.

(** Storing a chunk at a fresh path keeps the recorded paths existing and
    apart. *)
Lemma chunkFilesOwned_store req st fullFilename :
  chunkFilesOwned st →
  files (world st) !! fullFilename = None →
  chunkFilesOwned
    (mkState
       (Index.setTransmission req
          (recorded fullFilename req
             (Index.accounted req (FILE_TRANSMISSIONS st)))
          (FILE_TRANSMISSIONS st))
       (Index.writeChunk fullFilename (payload req) (world st))).
Proof.
  intros Hinv Hfresh.
  assert (∀ clientId transId i path,
            recordedAt
              (Index.setTransmission req
                 (recorded fullFilename req
                    (Index.accounted req (FILE_TRANSMISSIONS st)))
                 (FILE_TRANSMISSIONS st)) clientId transId i path →
            ((clientId, transId, i)
               = (x_clientid req, x_transid req, x_partial req)
             ∧ path = fullFilename)
            ∨ (path ≠ fullFilename
               ∧ (clientId, transId, i)
                   ≠ (x_clientid req, x_transid req, x_partial req)
               ∧ recordedAt (FILE_TRANSMISSIONS st) clientId transId i path))
    as Hcases.
  { intros clientId transId i path.
    rewrite recordedAt_setTransmission, recorded_chunks.
    assert (∀ c t j, recordedAt (FILE_TRANSMISSIONS st) c t j path →
                     path ≠ fullFilename) as Hold.
    { intros c t j [Hex _]%Hinv ->. rewrite Hfresh in Hex. by destruct Hex. }
    intros [[[= -> ->] Hpath]|[Hne Hrec]].
    - destruct (decide (i = x_partial req)) as [->|Hi].
      + rewrite lookup_insert_eq in Hpath. injection Hpath as <-. by left.
      + rewrite lookup_insert_ne in Hpath by done.
        apply recordedAt_accounted in Hpath. right.
        split_and!; [by eapply Hold|congruence|done].
    - right. split_and!; [by eapply Hold|congruence|done]. }
  intros clientId transId i path Hrec. cbn [world FILE_TRANSMISSIONS] in *.
  rewrite writeChunk_files. split.
  - destruct (Hcases _ _ _ _ Hrec) as [[_ ->]|(Hne & _ & Hold)].
    + rewrite lookup_insert_eq. by eexists.
    + rewrite lookup_insert_ne by done. by apply (Hinv _ _ _ _ Hold).
  - intros clientId' transId' i' Hrec'.
    destruct (Hcases _ _ _ _ Hrec) as [[Hkey ->]|(Hne & _ & Hold)],
             (Hcases _ _ _ _ Hrec') as [[Hkey' Hp]|(Hne' & _ & Hold')];
      try congruence.
    by apply (Hinv _ _ _ _ Hold).
Qed.

Lemma getFinalFile_rejected_files tmpFilename folder t w w' :
  Index.getFinalFile tmpFilename folder t w = Some (Rejected, w') →
  ∀ path, is_Some (files w !! path) → is_Some (files w' !! path).
Proof.
  intros Hrejected path Hpath.
  destruct (getFinalFile_unfold tmpFilename folder t w)
    as (out & r & w'' & Hout & Hfresh & Hrun & Heq).
  rewrite Heq in Hrejected. destruct r as [[]|]; [done|].
  injection Hrejected as <-.
  destruct (appendFileData_rejected_files _ _ _ _ _ _ Hrun) as [_ Hrest].
  { simpl. rewrite lookup_insert_eq. by eexists. }
  assert (path ≠ out) as Hne.
  { intros ->. rewrite Hfresh in Hpath. by destruct Hpath. }
  by rewrite Hrest, createWriteStream_files_ne.
Qed.

Lemma getFinalFile_resolved_files tmpFilename folder t w filedata w' :
  Index.getFinalFile tmpFilename folder t w = Some (Resolved filedata, w') →
  (∀ path, path ∈ chunkPaths t → is_Some (files w !! path)) →
  ∀ path, is_Some (files w !! path) → path ∉ chunkPaths t →
          files (Index.removeFile (tmpBuildFilename filedata) w') !! path
          = files w !! path.
Proof.
  intros Hresolved Hstored path Hpath Hnotchunk.
  destruct (getFinalFile_unfold tmpFilename folder t w)
    as (out & r & w'' & Hout & Hfresh & Hrun & Heq).
  rewrite Heq in Hresolved. destruct r as [[]|]; [|done].
  injection Hresolved as <- <-. cbn [tmpBuildFilename].
  assert (path ≠ out) as Hne.
  { intros ->. rewrite Hfresh in Hpath. by destruct Hpath. }
  destruct (appendFileData_resolved _ _ _ _ _ _ Hrun)
    as (_ & _ & _ & _ & _ & Hrest).
  - apply createWriteStream_open.
  - intros [data Hdata]%Hstored. congruence.
  - rewrite removeFile_files, lookup_delete_ne by done.
    rewrite Hrest, decide_False by done.
    by apply createWriteStream_files_ne.
Qed.

(** One call without a callback keeps the recorded paths existing and
    apart. *)
Lemma chunkFilesOwned_step call st reply st' :
  Index.call_callback call = None →
  chunkFilesOwned st →
  recieveFile (Index.call_max call) (Index.call_callback call)
    (Index.call_chunkName call) (Index.call_buildName call)
    (Index.call_request call) st = Some (reply, st') →
  chunkFilesOwned st'.
Proof.
  intros Hcallback Hinv Hone.
  destruct (recieveFile_cases TMP_DIR globalMaxFileSize JSON_parse
              (Index.call_max call) (Index.call_callback call)
              (Index.call_chunkName call) (Index.call_buildName call)
              (Index.call_request call) st) as (reply' & st'' & Hone' & Hcases).
  rewrite Hone in Hone'. injection Hone' as <- <-.
  set (req := Index.call_request call) in *.
  destruct Hcases as [(_ & _ & ->)|(_ & f & Hfresh & Hrest)].
  - intros clientId transId i path
      [Hne [[[= -> ->] _]|[_ Hrec]]%recordedAt_setTransmission]%recordedAt_forget;
      [done|].
    cbn [world]. split; [by apply (Hinv _ _ _ _ Hrec)|].
    intros clientId' transId' i'
      [Hne' [[[= -> ->] _]|[_ Hrec']]%recordedAt_setTransmission]
      %recordedAt_forget; [done|].
    by apply (Hinv _ _ _ _ Hrec).
  - pose proof (chunkFilesOwned_store req st f Hinv Hfresh) as Hstored.
    cbn zeta in Hrest.
    set (t' := recorded f req (Index.accounted req (FILE_TRANSMISSIONS st)))
      in *.
    set (w1 := Index.writeChunk f (payload req) (world st)) in *.
    destruct Hrest as [(_ & _ & ->)|[(_ & w' & Hbuild & _ & ->)
                                    |(_ & fd & w' & Hbuild & _ & ->)]].
    + done.
    + intros clientId transId i path Hrec. cbn [world FILE_TRANSMISSIONS] in *.
      destruct (Hstored _ _ _ _ Hrec) as [Hex Huniq]. split; [|done].
      by apply (getFinalFile_rejected_files _ _ _ _ _ Hbuild).
    + rewrite Hcallback.
      intros clientId transId i path [Hne Hrec]%recordedAt_forget.
      cbn [world FILE_TRANSMISSIONS] in *.
      destruct (Hstored _ _ _ _ Hrec) as [Hex Huniq]. split.
      * rewrite (getFinalFile_resolved_files _ _ _ _ _ _ Hbuild); [done| |done|].
        -- intros p [j Hj]%chunkPaths_elem_of.
           apply (Hstored (x_clientid req) (x_transid req) j p).
           exists t'. split; [apply transmissionOf_setTransmission|done].
        -- intros [j Hj]%chunkPaths_elem_of.
           assert (recordedAt
                     (Index.setTransmission req t' (FILE_TRANSMISSIONS st))
                     (x_clientid req) (x_transid req) j path) as Hrec'.
           { exists t'. split; [apply transmissionOf_setTransmission|done]. }
           apply Huniq in Hrec'. congruence.
      * intros clientId' transId' i' [_ Hrec']%recordedAt_forget.
        by apply Huniq.
Qed.


(** A call without a callback leaves the chunk files of every other
    transmission as they are. *)
Lemma foreign_call_keeps_chunk_files call st reply st' clientId transId i path :
  Index.call_callback call = None →
  chunkFilesOwned st →
  recieveFile (Index.call_max call) (Index.call_callback call)
    (Index.call_chunkName call) (Index.call_buildName call)
    (Index.call_request call) st = Some (reply, st') →
  (clientId, transId)
    ≠ (x_clientid (Index.call_request call), x_transid (Index.call_request call)) →
  recordedAt (FILE_TRANSMISSIONS st) clientId transId i path →
  files (world st') !! path = files (world st) !! path.
Proof.
  intros Hcallback Hinv Hone Hother Hrec.
  destruct (recieveFile_cases TMP_DIR globalMaxFileSize JSON_parse
              (Index.call_max call) (Index.call_callback call)
              (Index.call_chunkName call) (Index.call_buildName call)
              (Index.call_request call) st) as (reply' & st'' & Hone' & Hcases).
  rewrite Hone in Hone'. injection Hone' as <- <-.
  set (req := Index.call_request call) in *.
  destruct (Hinv _ _ _ _ Hrec) as [Hex _].
  destruct Hcases as [(_ & _ & ->)|(_ & f & Hfresh & Hrest)]; [done|].
  pose proof (chunkFilesOwned_store req st f Hinv Hfresh) as Hstored.
  cbn zeta in Hrest.
  set (t' := recorded f req (Index.accounted req (FILE_TRANSMISSIONS st))) in *.
  set (w1 := Index.writeChunk f (payload req) (world st)) in *.
  assert (recordedAt (Index.setTransmission req t' (FILE_TRANSMISSIONS st))
            clientId transId i path) as Hrec1.
  { apply recordedAt_setTransmission. by right. }
  assert (files w1 !! path = files (world st) !! path) as Hw1.
  { unfold w1. rewrite writeChunk_files, lookup_insert_ne; [done|].
    intros ->. rewrite Hfresh in Hex. by destruct Hex. }
  destruct (Hstored _ _ _ _ Hrec1) as [Hex1 Huniq].
  cbn [world] in Hex1.
  destruct Hrest as [(_ & _ & ->)|[(_ & w' & Hbuild & _ & ->)
                                  |(_ & fd & w' & Hbuild & _ & ->)]];
    cbn [world].
  - done.
  - rewrite <- Hw1.
    destruct (getFinalFile_unfold (Index.call_buildName call) TMP_DIR t' w1)
      as (out & r & w'' & Hout & Hfree & Happend & Heq).
    rewrite Heq in Hbuild. destruct r as [[]|]; [done|].
    injection Hbuild as <-.
    destruct (appendFileData_rejected_files _ _ _ _ _ _ Happend) as [_ Hrest].
    { simpl. rewrite lookup_insert_eq. by eexists. }
    assert (path ≠ out) as Hne.
    { intros ->. rewrite Hfree in Hex1. by destruct Hex1. }
    by rewrite Hrest, createWriteStream_files_ne.
  - rewrite Hcallback, <- Hw1.
    apply (getFinalFile_resolved_files _ _ _ _ _ _ Hbuild); [|done|].
    + intros p [j Hj]%chunkPaths_elem_of.
      apply (Hstored (x_clientid req) (x_transid req) j p).
      exists t'. split; [apply transmissionOf_setTransmission|done].
    + intros [j Hj]%chunkPaths_elem_of.
      assert (recordedAt
                (Index.setTransmission req t' (FILE_TRANSMISSIONS st))
                (x_clientid req) (x_transid req) j path) as Hrec'.
      { exists t'. split; [apply transmissionOf_setTransmission|done]. }
      apply Huniq in Hrec'. congruence.
Qed.

(** Calls with generated ids and without a callback keep this invariant:
    every path recorded for a chunk is a file on disk, and no path is
    recorded twice, neither under two indices nor by two transmissions.
    So a chunk entry never points to a missing file or into another
    upload. *)
Theorem recorded_chunks_have_their_own_files calls st replies st'
    (Hcalls : Forall (λ call,
                 Index.call_callback call = None
                 ∧ generatedIds (Index.call_request call)) calls)
    (Hinit : chunkFilesOwned st)
    (Hrun : run calls st = Some (replies, st')) :
  chunkFilesOwned st'.
Proof.
  apply (run_invariant chunkFilesOwned
           (λ call, Index.call_callback call = None
                    ∧ generatedIds (Index.call_request call)))
    with calls st replies; [|done..].
  clear. intros call st reply st' [Hcallback _] Hinv Hone.
  by eapply chunkFilesOwned_step.
Qed.

(** Uploads do not interfere: calls for other transmissions, with
    generated ids and without callbacks, leave the registry entry of a
    transmission as it is and its chunk files with the bytes they had,
    whatever those calls store, abort, assemble or clean up. *)
Theorem uploads_do_not_interfere calls st replies st' clientId transId
    (Hcalls : Forall (λ call,
                 Index.call_callback call = None
                 ∧ generatedIds (Index.call_request call)
                 ∧ (clientId, transId)
                     ≠ (x_clientid (Index.call_request call),
                        x_transid (Index.call_request call))) calls)
    (Hinit : chunkFilesOwned st)
    (Hrun : run calls st = Some (replies, st')) :
  transmissionOf clientId transId (FILE_TRANSMISSIONS st')
  = transmissionOf clientId transId (FILE_TRANSMISSIONS st)
  ∧ ∀ i path,
      recordedAt (FILE_TRANSMISSIONS st) clientId transId i path →
      files (world st') !! path = files (world st) !! path.
Proof.
  enough (chunkFilesOwned st'
          ∧ transmissionOf clientId transId (FILE_TRANSMISSIONS st')
            = transmissionOf clientId transId (FILE_TRANSMISSIONS st)
          ∧ ∀ i path,
              recordedAt (FILE_TRANSMISSIONS st) clientId transId i path →
              files (world st') !! path = files (world st) !! path)
    as (_ & ? & ?) by done.
  apply (run_invariant
           (λ st1,
              chunkFilesOwned st1
              ∧ transmissionOf clientId transId (FILE_TRANSMISSIONS st1)
                = transmissionOf clientId transId (FILE_TRANSMISSIONS st)
              ∧ ∀ i path,
                  recordedAt (FILE_TRANSMISSIONS st) clientId transId i path →
                  files (world st1) !! path = files (world st) !! path)
           (λ call,
              Index.call_callback call = None
              ∧ generatedIds (Index.call_request call)
              ∧ (clientId, transId)
                  ≠ (x_clientid (Index.call_request call),
                     x_transid (Index.call_request call))))
    with calls st replies; [|done|by split_and!|done].
  clear -clientId. intros call st1 reply st2 (Hcallback & _ & Hother)
    (Hinv & Hentry & Hfiles) Hone.
  split_and!.
  - by eapply chunkFilesOwned_step.
  - rewrite <- Hentry.
    by eapply recieveFile_other_entry.
  - intros i path Hrec. rewrite <- (Hfiles _ _ Hrec).
    eapply foreign_call_keeps_chunk_files; [done..|].
    unfold recordedAt in *. by rewrite Hentry.
Qed.

End Invariants.

(** ** The further properties on the example uploads *)

(** The first chunk of an upload on the empty registry. *)
Lemma first_chunk_stored :
  ∃ st',
    Index.recieveFile "/tmp/" None parseEmptyObject (Some 1024) None
      "tmp-file-1-17" "tmp-file-1-18" (chunkRequest 1 "001" None) emptyState
    = Some (Incomplete, st').
Proof. eexists. vm_compute. reflexivity. Defined.

(** A one-chunk upload on the empty registry. *)
Lemma single_chunk_completes :
  ∃ st',
    Index.recieveFile "/tmp/" None parseEmptyObject (Some 1024) None
      "tmp-file-1-17" "tmp-file-1-18"
      (chunkRequest 1 "001" (Some "photo.png")) emptyState
    = Some (Complete "/tmp/tmp-file-1-18" (Some "photo.png"), st').
Proof. eexists. vm_compute. reflexivity. Defined.

Lemma wellFormed_emptyState : wellFormed (FILE_TRANSMISSIONS emptyState).
Proof. intros clientId transId t Ht. vm_compute in Ht. discriminate. Defined.

(** A chunk of ten bytes under a limit of ten bytes. *)
Lemma quota_signal_iff_above_limit_witness :
  generatedIds (chunkRequest 1 "001" None)
  ∧ ∃ reply st',
      Index.recieveFile "/tmp/" None parseEmptyObject (Some 10) None
        "tmp-file-1-17" "tmp-file-1-18" (chunkRequest 1 "001" None) emptyState
      = Some (reply, st')
      ∧ reply ≠ QuotaExceeded.
Proof.
  split; [apply chunkRequest_generatedIds|].
  destruct (quota_signal_iff_above_limit "/tmp/" None parseEmptyObject
              (Some 10) None "tmp-file-1-17" "tmp-file-1-18"
              (chunkRequest 1 "001" None) emptyState
              (chunkRequest_generatedIds _ _ _))
    as (reply & st' & Hrun & Hiff).
  exists reply, st'. split; [exact Hrun|].
  intros [(total & Htotal & _)|Hsize]%Hiff.
  - discriminate.
  - vm_compute in Hsize. discriminate.
Defined.

(** A chunk of another client arrives while chunk 1 of the first client
    is stored: the entry of the first client is as it was. *)
Lemma other_transmissions_untouched_witness :
  ∃ st',
    Index.recieveFile "/tmp/" None parseEmptyObject (Some 1024) None
      "tmp-file-2-17" "tmp-file-2-18" (otherClientRequest 1 "004" None)
      chunkStored
    = Some (Incomplete, st')
    ∧ transmissionOf "ITSA_CL_ID-1" "ITSA-FILETRANS-1" (FILE_TRANSMISSIONS st')
      = Some (mkTransmission 10 None None None {[ 1 := "/tmp/tmp-file-1-17" ]}).
Proof.
  assert (∃ st',
            Index.recieveFile "/tmp/" None parseEmptyObject (Some 1024) None
              "tmp-file-2-17" "tmp-file-2-18" (otherClientRequest 1 "004" None)
              chunkStored = Some (Incomplete, st')) as [st' Hrun].
  { eexists. vm_compute. reflexivity. }
  exists st'. split; [exact Hrun|].
  rewrite (other_transmissions_untouched _ _ _ _ _ _ _ _ _ _ _ _ _
             (otherClientRequest_generatedIds _ _ _) Hrun).
  - reflexivity.
  - discriminate.
Defined.

Lemma entry_removed_iff_aborted_or_completed_witness :
  ∃ st',
    Index.recieveFile "/tmp/" None parseEmptyObject (Some 1024) None
      "tmp-file-1-17" "tmp-file-1-18"
      (chunkRequest 1 "001" (Some "photo.png")) emptyState
    = Some (Complete "/tmp/tmp-file-1-18" (Some "photo.png"), st')
    ∧ Index.accounted (chunkRequest 2 "002" None) (FILE_TRANSMISSIONS st')
      = mkTransmission 10 None None None ∅.
Proof.
  destruct single_chunk_completes as [st' Hrun].
  exists st'. split; [exact Hrun|].
  destruct (entry_removed_iff_aborted_or_completed _ _ _ _ _ _ _ _ _ _ _
              (chunkRequest 2 "002" None) (chunkRequest_generatedIds _ _ _)
              Hrun eq_refl eq_refl) as [_ Hnew].
  apply Hnew. right. by eexists _, _.
Defined.

Lemma incomplete_call_adds_one_file_witness :
  ∃ st' fullFilename,
    files (world emptyState) !! fullFilename = None
    ∧ files (world st')
      = <[fullFilename := replicate 10 "001"%byte]> (files (world emptyState)).
Proof.
  destruct first_chunk_stored as [st' Hrun].
  destruct (incomplete_call_adds_one_file _ _ _ _ _ _ _ _ _ _ Hrun)
    as (fullFilename & Hfresh & Hfiles & _).
  by exists st', fullFilename.
Defined.

Lemma no_stream_left_open_unless_rejected_witness :
  ∃ st',
    Index.recieveFile "/tmp/" None parseEmptyObject (Some 1024) None
      "tmp-file-1-17" "tmp-file-1-18"
      (chunkRequest 1 "001" (Some "photo.png")) emptyState
    = Some (Complete "/tmp/tmp-file-1-18" (Some "photo.png"), st')
    ∧ handles (world st') ⊆ handles (world emptyState).
Proof.
  destruct single_chunk_completes as [st' Hrun].
  exists st'. split; [exact Hrun|].
  apply (no_stream_left_open_unless_rejected _ _ _ _ _ _ _ _ _ _ Hrun).
  discriminate.
Defined.

(** Chunk 2 arrives after chunk 1 under a limit of 1 KB: twenty bytes
    are counted. *)
Lemma stored_size_within_limit_witness :
  ∃ st' t,
    Index.recieveFile "/tmp/" None parseEmptyObject (Some 1024) None
      "tmp-file-2-17" "tmp-file-2-18" (chunkRequest 2 "002" None) chunkStored
    = Some (Incomplete, st')
    ∧ transmissionOf "ITSA_CL_ID-1" "ITSA-FILETRANS-1" (FILE_TRANSMISSIONS st')
      = Some t
    ∧ cummulatedSize t ≤ 1024.
Proof.
  assert (∃ st' t,
            Index.recieveFile "/tmp/" None parseEmptyObject (Some 1024) None
              "tmp-file-2-17" "tmp-file-2-18" (chunkRequest 2 "002" None)
              chunkStored = Some (Incomplete, st')
            ∧ transmissionOf "ITSA_CL_ID-1" "ITSA-FILETRANS-1"
                (FILE_TRANSMISSIONS st') = Some t) as (st' & t & Hrun & Ht).
  { eexists _, _. split; [vm_compute; reflexivity|]. vm_compute. reflexivity. }
  exists st', t. split; [exact Hrun|]. split; [exact Ht|].
  by destruct (stored_size_within_limit _ _ _ _ _ _ _ _ _ _ _ _
                 (chunkRequest_generatedIds _ _ _) Hrun Ht).
Defined.


Lemma empty_filename_is_no_filename_witness :
  Index.recieveFile "/tmp/" None parseEmptyObject (Some 1024) None
    "tmp-file-1-17" "tmp-file-1-18" (chunkRequest 1 "001" (Some "")) emptyState
  = Index.recieveFile "/tmp/" None parseEmptyObject (Some 1024) None
      "tmp-file-1-17" "tmp-file-1-18" (chunkRequest 1 "001" None) emptyState.
Proof.
  apply (empty_filename_is_no_filename "/tmp/" None parseEmptyObject
           (Some 1024) None "tmp-file-1-17" "tmp-file-1-18"
           (chunkRequest 1 "001" (Some "")) emptyState).
  reflexivity.
Defined.

Lemma complete_only_with_indices_one_to_count_witness :
  ∃ fullFilename n,
    dom (chunks (Index.recorded parseEmptyObject fullFilename
                   (chunkRequest 1 "001" (Some "photo.png"))
                   (Index.accounted (chunkRequest 1 "001" (Some "photo.png"))
                      (FILE_TRANSMISSIONS emptyState))))
    = list_to_set (indices n).
Proof.
  destruct single_chunk_completes as [st' Hrun].
  destruct (complete_only_with_indices_one_to_count _ _ _ _ _ _ _ _ _ _ _ _
              wellFormed_emptyState Hrun)
    as (fullFilename & n & name & _ & _ & Hdom & _).
  by exists fullFilename, n.
Defined.

Lemma no_client_entry_left_empty_witness :
  ∃ replies st',
    Index.run "/tmp/" None parseEmptyObject oversizedUpload emptyState
    = Some (replies, st')
    ∧ noEmptyClient (FILE_TRANSMISSIONS st').
Proof.
  assert (∃ replies st',
            Index.run "/tmp/" None parseEmptyObject oversizedUpload emptyState
            = Some (replies, st')) as (replies & st' & Hrun).
  { eexists _, _. vm_compute. reflexivity. }
  exists replies, st'. split; [exact Hrun|].
  assert (noEmptyClient (FILE_TRANSMISSIONS emptyState)) as Hinit.
  { intros clientId client Hclient. vm_compute in Hclient. discriminate. }
  assert (Forall (λ call, generatedIds (Index.call_request call))
            oversizedUpload) as Hids.
  { repeat constructor; apply chunkRequest_generatedIds. }
  exact (no_client_entry_left_empty _ _ _ _ _ _ _ Hids Hinit Hrun).
Defined.

Lemma chunkFilesOwned_emptyState : chunkFilesOwned emptyState.
Proof.
  intros clientId transId i path (t & Ht & _). vm_compute in Ht. discriminate.
Defined.

(** The state after chunk 1 has its one chunk file. *)
Lemma chunkFilesOwned_chunkStored : chunkFilesOwned chunkStored.
Proof.
  apply (chunkFilesOwned_step "/tmp/" None parseEmptyObject
           (Index.mkCall (Some 15) None "tmp-file-1-17" "tmp-file-1-18"
              (chunkRequest 1 "001" None))
           emptyState Incomplete chunkStored eq_refl
           chunkFilesOwned_emptyState chunkStored_reached).
Defined.

Lemma recorded_chunks_have_their_own_files_witness :
  ∃ replies st',
    Index.run "/tmp/" None parseEmptyObject (take 2 resentUpload) emptyState
    = Some (replies, st')
    ∧ chunkFilesOwned st'.
Proof.
  assert (∃ replies st',
            Index.run "/tmp/" None parseEmptyObject (take 2 resentUpload)
              emptyState = Some (replies, st')) as (replies & st' & Hrun).
  { eexists _, _. vm_compute. reflexivity. }
  exists replies, st'. split; [exact Hrun|].
  assert (Forall (λ call, Index.call_callback call = None
                          ∧ generatedIds (Index.call_request call))
            (take 2 resentUpload)) as Hcalls.
  { repeat constructor; apply chunkRequest_generatedIds. }
  exact (recorded_chunks_have_their_own_files _ _ _ _ _ _ _
           Hcalls chunkFilesOwned_emptyState Hrun).
Defined.

Lemma run_wellFormed_witness :
  ∃ replies st',
    Index.run "/tmp/" None parseEmptyObject photoUpload emptyState
    = Some (replies, st')
    ∧ wellFormed (FILE_TRANSMISSIONS st').
Proof.
  assert (∃ replies st',
            Index.run "/tmp/" None parseEmptyObject photoUpload emptyState
            = Some (replies, st')) as (replies & st' & Hrun).
  { eexists _, _. vm_compute. reflexivity. }
  exists replies, st'. split; [exact Hrun|].
  apply (run_wellFormed _ _ _ _ _ _ _ wellFormed_emptyState Hrun).
Defined.

(** While chunk 1 of the first client is stored, a second client uploads
    a file of two chunks, which is assembled, handed over and cleaned
    up: the entry of the first client and its chunk file are as they
    were. *)
Lemma uploads_do_not_interfere_witness :
  ∃ out st',
    Index.run "/tmp/" None parseEmptyObject otherClientUpload chunkStored
    = Some ([Incomplete; Complete out (Some "notes.txt")], st')
    ∧ transmissionOf "ITSA_CL_ID-1" "ITSA-FILETRANS-1" (FILE_TRANSMISSIONS st')
      = Some (mkTransmission 10 None None None {[ 1 := "/tmp/tmp-file-1-17" ]})
    ∧ files (world st') !! "/tmp/tmp-file-1-17"
      = Some (replicate 10 "001"%byte).
Proof.
  assert (∃ out st',
            Index.run "/tmp/" None parseEmptyObject otherClientUpload
              chunkStored
            = Some ([Incomplete; Complete out (Some "notes.txt")], st'))
    as (out & st' & Hrun).
  { eexists _, _. vm_compute. reflexivity. }
  exists out, st'. split; [exact Hrun|].
  assert (Forall (λ call,
                    Index.call_callback call = None
                    ∧ generatedIds (Index.call_request call)
                    ∧ ("ITSA_CL_ID-1", "ITSA-FILETRANS-1")
                        ≠ (x_clientid (Index.call_request call),
                           x_transid (Index.call_request call)))
            otherClientUpload) as Hcalls.
  { repeat constructor; first [apply otherClientRequest_generatedIds
                              |discriminate]. }
  destruct (uploads_do_not_interfere _ _ _ _ _ _ _ _ _
              Hcalls chunkFilesOwned_chunkStored Hrun) as [Hentry Hfiles].
  split.
  - rewrite Hentry. reflexivity.
  - rewrite (Hfiles 1 "/tmp/tmp-file-1-17"); [reflexivity|].
    eexists. split; reflexivity.
Defined.
